(** * Retrieval core of the Teams agent: MyDataSource and SharePointDataSource

    A shallow embedding of [src/app/myDataSource.ts] and
    [src/app/sharePointDataSource.ts], and the properties of chunking,
    keyword extraction, scoring, ranked search and context rendering.

    Conventions of the embedding.
    - A JavaScript string is a sequence of UTF-16 code units.  The embedding
      covers the code units below 256 (the Latin-1 range), one [ascii] each,
      so a string is a [list ascii].  Within that range [toLowerCase] works
      code unit by code unit, and the white space of [trim] and of the
      regular expression class [\s] is TAB, LF, VT, FF, CR, SPACE and NBSP.
    - A JavaScript number that holds a count or an index is a [nat] or a [Z];
      a score is a real number ([R]): [Math.log] is [ln], [Math.sqrt] is
      [sqrt], and the arithmetic of doubles is taken as exact.
    - The mutable fields of a class instance are a record, and a method that
      assigns to them is a function from record to record.  What a method
      reads from the file system or from the environment is an argument. *)

From Stdlib Require Import Ascii String List Bool Arith ZArith Lia.
From Stdlib Require Import Reals Lra.
From Stdlib Require Import Sorting.Sorted Sorting.Permutation.
Import ListNotations.

Set Implicit Arguments.

(** ** JavaScript strings *)

Module Js.

Definition str := list ascii.

(** A string literal of the source. *)
Definition lit (s : string) : str := list_ascii_of_string s.

Definition code (c : ascii) : nat := nat_of_ascii c.

Definition between (lo hi : nat) (c : ascii) : bool :=
  (lo <=? code c) && (code c <=? hi).

(** [\s], and the characters [trim] strips. *)
Definition isSpace (c : ascii) : bool :=
  between 9 13 c || (code c =? 32) || (code c =? 160).

(** [\w]: letters, digits and the underscore of ASCII. *)
Definition isWord (c : ascii) : bool :=
  between 97 122 c || between 65 90 c || between 48 57 c || (code c =? 95).

(** One code unit of [String.prototype.toLowerCase]: A-Z, and the capital
    letters of Latin-1 (all of 0xC0-0xDE but the multiplication sign). *)
Definition lowerChar (c : ascii) : ascii :=
  if between 65 90 c
     || (between 192 222 c && negb (code c =? 215))
  then ascii_of_nat (code c + 32)
  else c.

Definition toLowerCase (s : str) : str := map lowerChar s.

(** Canonicalize of a case-insensitive, non-unicode regular expression:
    the code unit is upper-cased when the upper case is again a single code
    unit.  Sharp s (its upper case has two code units) stays; y with
    diaeresis and the micro sign have an upper case above 255 that no other
    Latin-1 code unit shares, so they behave as kept. *)
Definition canonicalize (c : ascii) : ascii :=
  if between 97 122 c
     || (between 224 254 c && negb (code c =? 247))
  then ascii_of_nat (code c - 32)
  else c.

Definition eqbChar (a b : ascii) : bool := Ascii.eqb a b.

Fixpoint dropWhile (p : ascii -> bool) (s : str) : str :=
  match s with
  | [] => []
  | c :: s' => if p c then dropWhile p s' else s
  end.

Fixpoint takeWhile (p : ascii -> bool) (s : str) : str :=
  match s with
  | [] => []
  | c :: s' => if p c then c :: takeWhile p s' else []
  end.

Definition trimStart (s : str) : str := dropWhile isSpace s.
Definition trimEnd (s : str) : str := rev (dropWhile isSpace (rev s)).

(** [String.prototype.trim]. *)
Definition trim (s : str) : str := trimEnd (trimStart s).

(** Truthiness of a string: the empty string is the only falsy one. *)
Definition truthy (s : str) : bool :=
  match s with [] => false | _ => true end.

(** [String.prototype.split] with a regular expression that matches no
    empty string.  [m s] is the length of the match that starts at the head
    of [s], 0 when there is none.  The scan keeps the piece collected so far
    ([cur], reversed) and the number of code units of the current match still
    to be passed over ([skip]). *)
Fixpoint splitGo (m : str -> nat) (s : str) (skip : nat) (cur : str)
  : list str :=
  match s with
  | [] => [rev cur]
  | c :: s' =>
      match skip with
      | S k => splitGo m s' k cur
      | O =>
          match m s with
          | S k => rev cur :: splitGo m s' k []
          | O => splitGo m s' 0 (c :: cur)
          end
      end
  end.

Definition split (m : str -> nat) (s : str) : list str := splitGo m s 0 [].

Definition isNewline (c : ascii) : bool := code c =? 10.

(** The match of [/\n\n+/] at the head of a string: the whole run of line
    feeds, when it has two or more. *)
Definition matchBlankLines (s : str) : nat :=
  let n := length (takeWhile isNewline s) in
  if 2 <=? n then n else 0.

(** The match of [/\s+/] at the head of a string. *)
Definition matchSpaces (s : str) : nat := length (takeWhile isSpace s).

(** [Array.prototype.join]. *)
Fixpoint join (sep : str) (l : list str) : str :=
  match l with
  | [] => []
  | [x] => x
  | x :: l' => x ++ sep ++ join sep l'
  end.

(** [String.prototype.replace] with the global class [/[^\w\s]/g] and a
    one-character replacement. *)
Definition replaceNonWordNonSpace (by_ : ascii) (s : str) : str :=
  map (fun c => if isWord c || isSpace c then c else by_) s.

Fixpoint startsWith (p s : str) : bool :=
  match p, s with
  | [], _ => true
  | _ :: _, [] => false
  | a :: p', b :: s' => eqbChar a b && startsWith p' s'
  end.

(** [String.prototype.includes]. *)
Fixpoint includes (s p : str) : bool :=
  startsWith p s ||
  match s with
  | [] => false
  | _ :: s' => includes s' p
  end.

Definition eqbStr (a b : str) : bool :=
  if list_eq_dec ascii_dec a b then true else false.

End Js.

Import Js.

Definition nl : ascii := ascii_of_nat 10.
Definition dquote : ascii := ascii_of_nat 34.
Definition blankLine : str := [nl; nl].

(** ** Numbers *)

Open Scope R_scope.

(** The comparisons of the source on scores. *)
Definition geb (x y : R) : bool := if Rge_dec x y then true else false.
Definition gtb (x y : R) : bool := if Rgt_dec x y then true else false.

(** [Math.ceil(n / 4)] on a length. *)
Definition ceilDiv4 (n : nat) : nat := ((n + 3) / 4)%nat.

(** ** Arrays *)

Section Arrays.
Variable A : Type.

(** [Array.prototype.slice(0, k)] for an integer [k]: a negative end is
    counted from the end of the array. *)
Definition slice0 (k : Z) (l : list A) : list A :=
  let len := Z.of_nat (length l) in
  let fin := if (k <? 0)%Z then Z.max (len + k) 0 else Z.min k len in
  firstn (Z.to_nat fin) l.

(** [Array.prototype.sort] with a comparator.  The sort is stable (ECMAScript
    2019): [a] stays in front of a later [b] unless the comparator asks for
    [b] first, that is unless [cmp a b > 0]. *)
Variable cmp : A -> A -> R.

Fixpoint insertSorted (a : A) (l : list A) : list A :=
  match l with
  | [] => [a]
  | b :: l' => if gtb (cmp a b) 0 then b :: insertSorted a l' else a :: l
  end.

Definition sort (l : list A) : list A := fold_right insertSorted [] l.

(** [forEach((x, index) => ...)]: the elements with their indices. *)
Fixpoint indexedFrom (i : nat) (l : list A) : list (nat * A) :=
  match l with
  | [] => []
  | x :: l' => (i, x) :: indexedFrom (S i) l'
  end.

Definition indexed (l : list A) : list (nat * A) := indexedFrom 0 l.
End Arrays.

(** ** The records of myDataSource.ts *)

Module Document.
Record t := mk { content : str; citation : str }.
End Document.

Module DocumentChunk.
Record t := mk
  { content : str; citation : str; chunkIndex : nat; totalChunks : nat }.
End DocumentChunk.

Module SearchResult.
Record t := mk { content : str; citation : str; score : R }.
End SearchResult.

Module RenderedContext.
Record t := mk { content : str; sources : list str }.
End RenderedContext.

Module RetrievalConfig.
Record t := mk { maxChunkSize : Z; topK : Z; minScore : R }.

(** [Partial<RetrievalConfig>]: each option may be absent. *)
Record partial := mkPartial
  { maxChunkSize_opt : option Z;
    topK_opt : option Z;
    minScore_opt : option R }.

(** The defaults of the constructor. *)
Definition default : t := mk 800 3 (1 / 10).

Definition orDefault (A : Type) (o : option A) (d : A) : A :=
  match o with Some x => x | None => d end.

(** The object spread of the constructor: the defaults, then the options
    that the caller gives. *)
Definition merge (config : option partial) : t :=
  match config with
  | None => default
  | Some c =>
      mk (orDefault (maxChunkSize_opt c) (maxChunkSize default))
         (orDefault (topK_opt c) (topK default))
         (orDefault (minScore_opt c) (minScore default))
  end.
End RetrievalConfig.

(** A chunk with its score: the object [{...chunk, score}] of [search]. *)
Module ScoredChunk.
Record t := mk { chunk : DocumentChunk.t; score : R }.
End ScoredChunk.

(** ** Whole-word matching: [new RegExp(`\\b${keyword}\\b`, 'gi')]

    The source puts the keyword into the pattern as it is.  The embedding
    covers the keywords without a syntax character of regular expressions,
    for which the pattern is the keyword itself, character by character;
    every keyword that [extractKeywords] returns is one of them. *)

Module Regex.

Definition isWordAt (c : option ascii) : bool :=
  match c with Some c => isWord c | None => false end.

(** The assertion [\b] between two neighbours; [None] is an end of the
    input. *)
Definition wordBoundary (prev next : option ascii) : bool :=
  xorb (isWordAt prev) (isWordAt next).

(** The keyword, then [\b], at the head of [s]; [prev] is the code unit
    before the head. *)
Fixpoint matchLiteral (kw s : str) (prev : option ascii) : bool :=
  match kw with
  | [] => wordBoundary prev (hd_error s)
  | k :: kw' =>
      match s with
      | [] => false
      | c :: s' =>
          eqbChar (canonicalize k) (canonicalize c)
          && matchLiteral kw' s' (Some c)
      end
  end.

(** The whole pattern at the head of [s]. *)
Definition matchAt (kw : str) (prev : option ascii) (s : str) : bool :=
  wordBoundary prev (hd_error s) && matchLiteral kw s prev.

(** The number of matches that [String.prototype.match] collects with the
    global flag: the scan goes from left to right, and after a match it
    goes on behind it (one code unit further when the match is empty).
    [skip] counts the code units of the last match still to be passed. *)
Fixpoint countGo (kw : str) (prev : option ascii) (s : str) (skip : nat)
  : nat :=
  match s with
  | [] =>
      match skip with
      | O => if matchAt kw prev [] then 1%nat else 0%nat
      | S _ => 0%nat
      end
  | c :: s' =>
      match skip with
      | S k => countGo kw (Some c) s' k
      | O =>
          if matchAt kw prev s
          then S (countGo kw (Some c) s' (pred (length kw)))
          else countGo kw (Some c) s' 0
      end
  end.

Definition countMatches (kw : str) (s : str) : nat := countGo kw None s 0.

End Regex.

(** ** MyDataSource *)

Module MyDataSource.

(** [STOP_WORDS]. *)
Definition STOP_WORDS : list str := map lit
  [ "a"; "an"; "and"; "are"; "as"; "at"; "be"; "by"; "for"; "from";
    "has"; "he"; "in"; "is"; "it"; "its"; "of"; "on"; "that"; "the";
    "to"; "was"; "were"; "will"; "with"; "what"; "how"; "why"; "when";
    "where"; "who"; "which"; "can"; "do"; "does"; "did"; "have"; "had";
    "me"; "my"; "about"; "tell"; "explain"; "describe"; "i"; "you"; "your"
  ]%string.

(** [Set.prototype.has]. *)
Definition has (set : list str) (w : str) : bool := existsb (eqbStr w) set.

(** The instance: its name and its private fields. *)
Record t := mk
  { name : str;
    _data : list Document.t;
    _chunks : list DocumentChunk.t;
    _config : RetrievalConfig.t }.

(** The constructor. *)
Definition new (name : str) (config : option RetrievalConfig.partial) : t :=
  mk name [] [] (RetrievalConfig.merge config).

(** [splitIntoChunks]: one turn of the loop over the paragraphs.  The state
    is the array [chunks] and the string [currentChunk]. *)
Definition splitStep (maxSize : Z) (st : list str * str) (paragraph : str)
  : list str * str :=
  let '(chunks, currentChunk) := st in
  let trimmedPara := trim paragraph in
  if negb (truthy trimmedPara) then st
  else
    let currentTokens := ceilDiv4 (length currentChunk) in
    let paraTokens := ceilDiv4 (length trimmedPara) in
    if (Z.of_nat (currentTokens + paraTokens) >? maxSize)%Z
       && truthy currentChunk
    then (chunks ++ [trim currentChunk], trimmedPara)
    else (chunks,
          currentChunk ++ (if truthy currentChunk then blankLine else [])
                       ++ trimmedPara).

(** The loop of [splitIntoChunks] over the paragraphs, from empty [chunks]
    and empty [currentChunk]. *)
Definition splitLoop (text : str) (maxSize : Z) : list str * str :=
  fold_left (splitStep maxSize) (split matchBlankLines text) ([], []).

Definition splitIntoChunks (text : str) (maxSize : Z) : list str :=
  let '(chunks, currentChunk) := splitLoop text maxSize in
  let chunks :=
    if truthy (trim currentChunk) then chunks ++ [trim currentChunk]
    else chunks in
  if (0 <? length chunks)%nat then chunks else [text].

(** [chunkDocuments]: the outer loop pushes, for each document, its chunks
    with their index and their number. *)
Definition chunkDocuments (config : RetrievalConfig.t)
  (documents : list Document.t) : list DocumentChunk.t :=
  fold_left
    (fun chunks doc =>
       let docChunks :=
         splitIntoChunks (Document.content doc)
                         (RetrievalConfig.maxChunkSize config) in
       fold_left
         (fun chunks '(index, chunk) =>
            chunks ++ [DocumentChunk.mk chunk (Document.citation doc)
                                        index (length docChunks)])
         (indexed docChunks) chunks)
    documents [].

(** What [init] finds on disk: [None] when the data directory does not
    exist, else the names that [readdirSync] lists, each with what
    [readFileSync] gives ([None]: the read throws). *)
Definition DataDir := option (list (str * option str)).

Definition init (dir : DataDir) (self : t) : t :=
  match dir with
  | None => self
  | Some files =>
      let data :=
        filter (fun item => (0 <? length (Document.content item))%nat)
          (map (fun '(file, read) =>
                  match read with
                  | Some content => Document.mk (trim content) file
                  | None => Document.mk [] file
                  end) files) in
      mk (name self) data (chunkDocuments (_config self) data) (_config self)
  end.

Definition extractKeywords (query : str) : list str :=
  filter (fun word => (2 <? length word)%nat && negb (has STOP_WORDS word))
    (split matchSpaces
       (replaceNonWordNonSpace " " (toLowerCase query))).

(** [calculateScore]: one turn of the loop over the keywords.  The state is
    [score] and [matchedKeywords]. *)
Definition scoreStep (contentLower : str) (st : R * nat) (keyword : str)
  : R * nat :=
  let '(score, matchedKeywords) := st in
  let matches := Regex.countMatches keyword contentLower in
  if (0 <? matches)%nat
  then (score + ln (1 + INR matches), S matchedKeywords)
  else st.

Definition calculateScore (content : str) (keywords : list str) : R :=
  if (length keywords =? 0)%nat then 0
  else
    let contentLower := toLowerCase content in
    let '(score, matchedKeywords) :=
      fold_left (scoreStep contentLower) keywords (0, 0%nat) in
    let coverageBonus := INR matchedKeywords / INR (length keywords) in
    (score * coverageBonus) / sqrt (INR (length keywords)).

(** The score of the fallback result. *)
Definition fallbackScore : R := 5 / 10.

Definition search (self : t) (query : str) : list SearchResult.t :=
  if negb (truthy query) then []
  else
    let keywords := extractKeywords query in
    if (length keywords =? 0)%nat then
      match _data self with
      | first :: _ =>
          [SearchResult.mk (Document.content first) (Document.citation first)
                           fallbackScore]
      | [] => []
      end
    else
      let scoredChunks :=
        map (fun chunk =>
               ScoredChunk.mk chunk
                 (calculateScore (DocumentChunk.content chunk) keywords))
            (_chunks self) in
      let relevantChunks :=
        slice0 (RetrievalConfig.topK (_config self))
          (sort (fun a b => ScoredChunk.score b - ScoredChunk.score a)
             (filter (fun chunk =>
                        geb (ScoredChunk.score chunk)
                            (RetrievalConfig.minScore (_config self)))
                     scoredChunks)) in
      map (fun chunk =>
             SearchResult.mk
               (DocumentChunk.content (ScoredChunk.chunk chunk))
               (DocumentChunk.citation (ScoredChunk.chunk chunk))
               (ScoredChunk.score chunk))
          relevantChunks.

Definition formatDocument (content citation : str) : str :=
  lit "<context source=" ++ [dquote] ++ citation ++ [dquote] ++ lit ">"
  ++ [nl] ++ content ++ [nl] ++ lit "</context>".

Definition renderContext (self : t) (query : str) : RenderedContext.t :=
  let searchResults := search self query in
  if (length searchResults =? 0)%nat then RenderedContext.mk [] []
  else
    let '(contextContent, sources) :=
      fold_left
        (fun '(contextContent, sources) result =>
           (contextContent
              ++ formatDocument (SearchResult.content result)
                                (SearchResult.citation result)
              ++ blankLine,
            sources ++ [SearchResult.citation result]))
        searchResults ([], []) in
    RenderedContext.mk (trim contextContent) sources.

Definition getAllDocuments (self : t) : list Document.t := _data self.

End MyDataSource.

(** ** SharePointDataSource *)

Module SharePointDocument.
Record t := mk
  { id : str; name : str; webUrl : str; content : str; lastModified : Z }.
End SharePointDocument.

Module SharePointDataSource.

Record t := mk
  { name : str;
    _documents : list SharePointDocument.t;
    _initialized : bool }.

(** The constructor. *)
Definition new (name : str) : t := mk name [] false.

(** [init]; [enabled] is [config.sharePoint.enabled], which the environment
    fixes.  The fetch is a comment: nothing is pushed to [_documents]. *)
Definition init (enabled : bool) (self : t) : t :=
  if negb enabled then self
  else mk (name self) (_documents self) true.

Definition search (self : t) (query : str) : list SearchResult.t :=
  if negb (_initialized self) || (length (_documents self) =? 0)%nat then []
  else
    let queryLower := toLowerCase query in
    fold_left
      (fun results doc =>
         if includes (toLowerCase (SharePointDocument.content doc)) queryLower
         then results ++ [SearchResult.mk (SharePointDocument.content doc)
                                          (SharePointDocument.name doc) 1]
         else results)
      (_documents self) [].

Definition renderContext (self : t) (query : str) : RenderedContext.t :=
  let searchResults := search self query in
  if (length searchResults =? 0)%nat then RenderedContext.mk [] []
  else
    let '(sources, content) :=
      fold_left
        (fun '(sources, content) result =>
           (sources ++ [SearchResult.citation result],
            content
              ++ lit "<context source=" ++ [dquote]
              ++ SearchResult.citation result ++ [dquote] ++ lit ">"
              ++ [nl] ++ SearchResult.content result ++ [nl]
              ++ lit "</context>" ++ blankLine))
        searchResults ([], []) in
    RenderedContext.mk (trim content) sources.

Definition getAllDocuments (self : t) : list SharePointDocument.t :=
  _documents self.

(** The states an instance goes through: constructed, then any number of
    calls of [init]. *)
Inductive reachable : t -> Prop :=
| reach_new : forall name, reachable (new name)
| reach_init : forall enabled self,
    reachable self -> reachable (init enabled self).

End SharePointDataSource.

(** ** The notions the properties are stated with *)

Module Spec.
Import MyDataSource.

(** A keyword of word characters only, and not empty: what a token left by
    [extractKeywords] looks like. *)
Definition wordToken (kw : str) : Prop :=
  kw <> [] /\ Forall (fun c => isWord c = true) kw.

(** Two code units that are the same letter, case aside. *)
Definition sameLetter (a b : ascii) : bool :=
  eqbChar (lowerChar a) (lowerChar b).

Fixpoint prefixIgnoringCase (kw s : str) : bool :=
  match kw, s with
  | [], _ => true
  | _ :: _, [] => false
  | k :: kw', c :: s' => sameLetter k c && prefixIgnoringCase kw' s'
  end.

(** The keyword stands at the head of [s] as a whole word: it is there,
    case aside, and neither the code unit before it ([prev]) nor the one
    behind it is a word character. *)
Definition wholeWordAt (kw : str) (prev : option ascii) (s : str) : bool :=
  negb (Regex.isWordAt prev)
  && prefixIgnoringCase kw s
  && negb (Regex.isWordAt (nth_error s (length kw))).

(** The number of positions of [s] at which the keyword stands as a whole
    word. *)
Fixpoint wholeWordsFrom (kw : str) (prev : option ascii) (s : str) : nat :=
  ((if wholeWordAt kw prev s then 1 else 0)
   + match s with
     | [] => 0
     | c :: s' => wholeWordsFrom kw (Some c) s'
     end)%nat.

Definition occurrences (kw content : str) : nat :=
  wholeWordsFrom kw None content.

Definition sum (l : list R) : R := fold_right Rplus 0 l.

(** The score as the specification words it, from the number of matches
    of each keyword: the sum of [ln (1 + count)] over the keywords with a
    match, times the share of these keywords in [ks], over the square root
    of the length of [ks]. *)
Definition scoreFormula (count : str -> nat) (ks : list str) : R :=
  let matched := filter (fun k => (0 <? count k)%nat) ks in
  sum (map (fun k => ln (1 + INR (count k))) matched)
  * (INR (length matched) / INR (length ks))
  / sqrt (INR (length ks)).

(** The formula over the whole-word occurrences in the content. *)
Definition specScore (content : str) (ks : list str) : R :=
  scoreFormula (fun k => occurrences k content) ks.

(** The trimmed, non-empty paragraphs of a text. *)
Definition paragraphsOf (text : str) : list str :=
  filter truthy (map trim (split matchBlankLines text)).

(** A chunk scored against the keywords of a query, as a result. *)
Definition scored (keywords : list str) (c : DocumentChunk.t)
  : SearchResult.t :=
  SearchResult.mk (DocumentChunk.content c) (DocumentChunk.citation c)
                  (calculateScore (DocumentChunk.content c) keywords).

Definition hasScore (s : R) (r : SearchResult.t) : bool :=
  if Req_dec_T (SearchResult.score r) s then true else false.

(** Among the results of any one score, [results] lists the candidates in
    the order of [candidates], from the first on. *)
Definition tiesKeepOrder (candidates results : list SearchResult.t) : Prop :=
  forall s, exists rest,
    filter (hasScore s) candidates = filter (hasScore s) results ++ rest.

Definition nonIncreasing (results : list SearchResult.t) : Prop :=
  StronglySorted
    (fun a b => SearchResult.score a >= SearchResult.score b) results.

(** One citation-tagged block of the rendered context. *)
Definition contextBlock (r : SearchResult.t) : str :=
  lit "<context source=" ++ [dquote] ++ SearchResult.citation r ++ [dquote]
  ++ lit ">" ++ [nl] ++ SearchResult.content r ++ [nl] ++ lit "</context>".





(** The chunks of one document as the store should hold them. *)
Definition chunksOf (maxSize : Z) (doc : Document.t) (group : list DocumentChunk.t)
  : Prop :=
  let texts := splitIntoChunks (Document.content doc) maxSize in
  length group = length texts /\
  forall i text, nth_error texts i = Some text ->
    nth_error group i =
      Some (DocumentChunk.mk text (Document.citation doc) i (length texts)).

(** The document of the scenarios: two paragraphs, a blank line between. *)
Definition foxText : str :=
  lit "The quick brown fox jumps." ++ blankLine ++ lit "The fox runs fast.".

(** The states an index goes through: constructed, then any number of calls
    of [init], each with what it finds on disk. *)
Inductive reachable : MyDataSource.t -> Prop :=
| reach_new : forall name config, reachable (new name config)
| reach_init : forall dir self,
    reachable self -> reachable (init dir self).

(** An index as constructed with the defaults, and the same index with the
    document of the scenarios loaded from the file fox.txt. *)
Definition freshIndex : MyDataSource.t := new (lit "knowledge-base") None.

Definition foxIndex : MyDataSource.t :=
  init (Some [(lit "fox.txt", Some foxText)]) freshIndex.

(** An index of four short documents that returns at most two results:
    "fox" occurs once in the first, twice in the second, not at all in the
    third, and once in the fourth. *)
Definition libraryFiles : list (str * option str) :=
  [ (lit "a.txt", Some (lit "The fox runs."));
    (lit "b.txt", Some (lit "A fox and a fox."));
    (lit "c.txt", Some (lit "The cat sleeps."));
    (lit "d.txt", Some (lit "Fox again.")) ].

Definition libraryIndex : MyDataSource.t :=
  init (Some libraryFiles)
       (new (lit "knowledge-base")
            (Some (RetrievalConfig.mkPartial None (Some 2%Z) None))).

(** A SharePoint source after a call of [init] with the integration
    enabled. *)
Definition sharePointSource : SharePointDataSource.t :=
  SharePointDataSource.init true
    (SharePointDataSource.new (lit "sharepoint-kb")).

End Spec.

(** ** The notions the proofs go through *)

Module Aux.
Import MyDataSource.

(** A string that is not empty and has no white space at either end. *)
Definition tight (s : str) : Prop :=
  match s with [] => False | c :: _ => isSpace c = false end
  /\ match rev s with [] => False | c :: _ => isSpace c = false end.

(** What [split] needs of the pattern: a match consists of white space. *)
Definition matchesSpace (m : str -> nat) : Prop :=
  forall s, Forall (fun c => isSpace c = true) (firstn (m s) s).

(** Paragraphs joined by blank lines. *)
Abbreviation J := (join blankLine).

(** A group of paragraphs that makes a chunk. *)
Definition goodGroup (g : list str) : Prop := g <> [] /\ Forall tight g.

(** The chunks that [chunkDocuments] pushes for one document. *)
Definition docChunks (maxSize : Z) (doc : Document.t) : list DocumentChunk.t :=
  let texts := splitIntoChunks (Document.content doc) maxSize in
  map (fun '(index, chunk) =>
         DocumentChunk.mk chunk (Document.citation doc) index (length texts))
      (indexed texts).

(** The comparator of [search] over a key: the larger key first. *)
Definition descending (A : Type) (key : A -> R) (a b : A) : R :=
  key b - key a.

(** The key of [a] is [s]. *)
Definition hasKey (A : Type) (key : A -> R) (s : R) (a : A) : bool :=
  if Req_dec_T (key a) s then true else false.

(** Sorted by non-increasing key. *)
Definition sortedDown (A : Type) (key : A -> R) : list A -> Prop :=
  StronglySorted (fun a b => key a >= key b).

(** All 256 code units, one by one. *)
Ltac each_ascii c := destruct c as [[] [] [] [] [] [] [] []].

(** A lower-case word character: what the tokens are made of. *)
Definition lowWord (c : ascii) : Prop := isWord c = true /\ lowerChar c = c.

(** A token: a non-empty string of lower-case word characters. *)
Definition token (w : str) : Prop := w <> [] /\ Forall lowWord w.

Definition space : str := lit " ".

(** [token] as a test that computes. *)
Definition tokenb (w : str) : bool :=
  truthy w && forallb (fun c => isWord c && eqbChar (lowerChar c) c) w.

(** The neighbour of a position, lower-cased with the content. *)
Definition lowerOpt (c : option ascii) : option ascii :=
  option_map lowerChar c.

End Aux.

(** ** The notions of the further properties *)

Module More.
Import MyDataSource Aux.

(** The token estimate of [splitIntoChunks]: a quarter of the length,
    rounded up. *)
Definition tokens (s : str) : nat := ceilDiv4 (length s).

(** A group of paragraphs respects the budget: it is a single paragraph, or
    the budget is 2 or more and the chunk it makes is estimated at no more
    than the budget plus one token (for the blank lines that join it). *)
Definition fits (maxSize : Z) (g : list str) : Prop :=
  length g = 1%nat
  \/ ((2 <= maxSize)%Z /\ (Z.of_nat (tokens (J g)) <= maxSize + 1)%Z).

(** Each group was closed because the paragraph behind it did not fit: its
    estimate and that of the first paragraph of the next group exceed the
    budget. *)
Fixpoint flushed (maxSize : Z) (groups : list (list str)) : Prop :=
  match groups with
  | g :: (g' :: _) as rest =>
      match g' with
      | p :: _ => (Z.of_nat (tokens (J g) + tokens p) > maxSize)%Z
      | [] => True
      end
      /\ flushed maxSize rest
  | _ => True
  end.

(** A lower-case letter, a digit or the underscore. *)
Definition isLowerWord (c : ascii) : bool :=
  between 97 122 c || between 48 57 c || (code c =? 95).






(** The keywords with a match, for a given count of matches, and what each
    adds to the raw score. *)
Definition matchedOf (count : str -> nat) (ks : list str) : list str :=
  filter (fun k => (0 <? count k)%nat) ks.

Definition gains (count : str -> nat) (ks : list str) : list R :=
  map (fun k => ln (1 + INR (count k))) (matchedOf count ks).

(** A SharePoint document as a result, and the test of
    [SharePointDataSource.search] on it. *)
Definition sharePointResult (doc : SharePointDocument.t) : SearchResult.t :=
  SearchResult.mk (SharePointDocument.content doc)
                  (SharePointDocument.name doc) 1.

Definition sharePointMatch (query : str) (doc : SharePointDocument.t) : bool :=
  includes (toLowerCase (SharePointDocument.content doc)) (toLowerCase query).

(** A SharePoint source set up with two documents, as a fetch would leave
    it. *)
Definition foxDocument : SharePointDocument.t :=
  SharePointDocument.mk (lit "1") (lit "fox.docx") (lit "https://sp/fox.docx")
                        (lit "The Fox runs fast.") 0.

Definition catDocument : SharePointDocument.t :=
  SharePointDocument.mk (lit "2") (lit "cat.docx") (lit "https://sp/cat.docx")
                        (lit "The cat sleeps.") 0.

Definition loadedSharePoint : SharePointDataSource.t :=
  SharePointDataSource.mk (lit "sharepoint-kb") [foxDocument; catDocument]
                          true.

(** What both sources make of their results: the blocks joined by blank
    lines, and the citations in the order of the results. *)
Definition rendered (results : list SearchResult.t) : RenderedContext.t :=
  RenderedContext.mk (join blankLine (map Spec.contextBlock results))
                     (map SearchResult.citation results).

(** A string without a blank line: no two line feeds in a row. *)
Definition noBlankLine (s : str) : Prop := includes s blankLine = false.

End More.

(** ** Lemmas on strings *)

Module JsFacts.
Import Aux.

Lemma dropWhile_app_last (p : ascii -> bool) (l : str) (c : ascii) :
  p c = false -> dropWhile p (l ++ [c]) = dropWhile p l ++ [c].
Proof.
  intros Hc. induction l as [|a l IH]; simpl.
  - now rewrite Hc.
  - destruct (p a); auto.
Qed.

Lemma dropWhile_head (p : ascii -> bool) (s : str) :
  match dropWhile p s with
  | [] => True
  | c :: _ => p c = false
  end.
Proof.
  induction s as [|a s IH]; simpl; auto.
  destruct (p a) eqn:E; auto.
Qed.

Lemma dropWhile_all (p : ascii -> bool) (s : str) :
  Forall (fun c => p c = true) s -> dropWhile p s = [].
Proof.
  induction 1 as [|c s Hc _ IH]; simpl; auto. now rewrite Hc.
Qed.

Lemma dropWhile_nil_all (p : ascii -> bool) (s : str) :
  dropWhile p s = [] -> Forall (fun c => p c = true) s.
Proof.
  induction s as [|c s IH]; simpl; auto.
  destruct (p c) eqn:E; [auto | discriminate].
Qed.

Lemma tight_nonempty (s : str) : tight s -> s <> [].
Proof. intros [H _] ->. exact H. Qed.

Lemma trim_tight (s : str) : tight s -> trim s = s.
Proof.
  intros [Hh Hl]. unfold trim, trimStart, trimEnd.
  destruct s as [|c s]; [contradiction|].
  cbn [dropWhile]. rewrite Hh.
  destruct (rev (c :: s)) as [|d r] eqn:E; [contradiction|].
  cbn [dropWhile]. rewrite Hl, <- E. apply rev_involutive.
Qed.

Lemma trim_nil_or_tight (s : str) : trim s = [] \/ tight (trim s).
Proof.
  unfold trim, trimStart, trimEnd.
  pose proof (dropWhile_head isSpace s) as Hh.
  destruct (dropWhile isSpace s) as [|c t]; [now left|].
  right. cbn [rev]. rewrite dropWhile_app_last by exact Hh.
  rewrite rev_app_distr. cbn [rev app].
  split; [exact Hh|].
  cbn [rev]. rewrite rev_involutive.
  pose proof (dropWhile_head isSpace (rev t)) as Hl.
  destruct (dropWhile isSpace (rev t)) as [|d u]; cbn [app]; auto.
Qed.

Lemma trim_idempotent (s : str) : trim (trim s) = trim s.
Proof.
  destruct (trim_nil_or_tight s) as [E|T].
  - rewrite E. reflexivity.
  - now apply trim_tight.
Qed.

Lemma truthy_true (s : str) : truthy s = true <-> s <> [].
Proof. destruct s; simpl; split; congruence. Qed.

Lemma truthy_false (s : str) : truthy s = false <-> s = [].
Proof. destruct s; simpl; split; congruence. Qed.

Lemma tight_app (a m b : str) : tight a -> tight b -> tight (a ++ m ++ b).
Proof.
  intros [Ha _] [Hb0 Hb]. split.
  - destruct a; [contradiction | exact Ha].
  - rewrite !rev_app_distr.
    destruct (rev b); [contradiction | exact Hb].
Qed.

Lemma trim_app_spaces (s w : str) :
  tight s -> Forall (fun c => isSpace c = true) w -> trim (s ++ w) = s.
Proof.
  intros [Hh Hl] Hw. unfold trim, trimStart, trimEnd.
  destruct s as [|c s]; [contradiction|].
  cbn [app dropWhile]. rewrite Hh.
  change (c :: s ++ w) with ((c :: s) ++ w).
  rewrite rev_app_distr.
  assert (Hd : forall r, dropWhile isSpace (rev w ++ r) = dropWhile isSpace r).
  { intros r. apply Forall_rev in Hw.
    induction Hw as [|x l Hx _ IH]; cbn [app dropWhile]; auto.
    now rewrite Hx. }
  rewrite Hd.
  destruct (rev (c :: s)) as [|d r] eqn:E; [contradiction|].
  cbn [dropWhile]. rewrite Hl, <- E. apply rev_involutive.
Qed.

Lemma trim_all_spaces (s : str) :
  Forall (fun c => isSpace c = true) s -> trim s = [].
Proof.
  intros H. unfold trim, trimStart. now rewrite dropWhile_all.
Qed.

Lemma trim_nil_all_spaces (s : str) :
  trim s = [] -> Forall (fun c => isSpace c = true) s.
Proof.
  intros H. destruct (Forall_Exists_dec (fun c => isSpace c = true)
                        (fun c => bool_dec (isSpace c) true) s) as [F|E]; auto.
  exfalso. unfold trim, trimStart, trimEnd in H.
  assert (Hn : dropWhile isSpace s <> []).
  { intros Hd. apply dropWhile_nil_all in Hd.
    apply Exists_exists in E. destruct E as [c [Hin Hc]].
    rewrite Forall_forall in Hd. auto. }
  pose proof (dropWhile_head isSpace s) as Hh.
  destruct (dropWhile isSpace s) as [|c t]; [congruence|].
  cbn [rev] in H. rewrite dropWhile_app_last in H by exact Hh.
  rewrite rev_app_distr in H. discriminate.
Qed.

Lemma firstn_takeWhile (p : ascii -> bool) (s : str) :
  firstn (length (takeWhile p s)) s = takeWhile p s.
Proof.
  induction s as [|c s IH]; simpl; auto.
  destruct (p c); simpl; [now rewrite IH | reflexivity].
Qed.

Lemma takeWhile_all (p : ascii -> bool) (s : str) :
  Forall (fun c => p c = true) (takeWhile p s).
Proof.
  induction s as [|c s IH]; simpl; auto.
  destruct (p c) eqn:E; auto.
Qed.

Lemma isNewline_isSpace (c : ascii) : isNewline c = true -> isSpace c = true.
Proof.
  unfold isNewline, isSpace, between. intros H.
  apply Nat.eqb_eq in H. rewrite H. reflexivity.
Qed.

Lemma matchBlankLines_space : matchesSpace matchBlankLines.
Proof.
  intros s. unfold matchBlankLines.
  destruct (2 <=? length (takeWhile isNewline s))%nat.
  - rewrite firstn_takeWhile.
    eapply Forall_impl; [|apply takeWhile_all].
    intros c. apply isNewline_isSpace.
  - constructor.
Qed.

Lemma matchSpaces_space : matchesSpace matchSpaces.
Proof.
  intros s. unfold matchSpaces. rewrite firstn_takeWhile.
  apply takeWhile_all.
Qed.

Section Split.
Variable m : str -> nat.
Hypothesis m_space : matchesSpace m.

(** No code unit that is not white space is lost by [split]. *)
Lemma splitGo_covers (s : str) : forall skip cur c,
  Forall (fun c => isSpace c = true) (firstn skip s) ->
  In c s \/ In c cur -> isSpace c = false ->
  exists piece, In piece (splitGo m s skip cur) /\ In c piece.
Proof.
  induction s as [|a s IH]; intros skip cur c Hskip Hin Hc.
  - exists (rev cur). split; [now left|].
    destruct Hin as [[]|Hin]. now apply in_rev in Hin.
  - cbn [splitGo]. destruct skip as [|k].
    + pose proof (m_space (a :: s)) as Hm.
      destruct (m (a :: s)) as [|k].
      * apply IH; [constructor| |exact Hc].
        destruct Hin as [[->|Hin]|Hin]; [right; now left|now left|].
        right; now right.
      * cbn [firstn] in Hm. inversion Hm as [|? ? Ha Hk]; subst.
        destruct Hin as [[->|Hin]|Hin]; [congruence| |].
        -- destruct (IH k [] c Hk (or_introl Hin) Hc) as [piece [H1 H2]].
           exists piece. split; [now right | exact H2].
        -- exists (rev cur). split; [now left|]. now apply in_rev in Hin.
    + cbn [firstn] in Hskip. inversion Hskip as [|? ? Ha Hk]; subst.
      apply IH; [exact Hk| |exact Hc].
      destruct Hin as [[->|Hin]|Hin]; [congruence|now left|now right].
Qed.

(** Every code unit of a piece comes from the input. *)
Lemma splitGo_from_input (s : str) : forall skip cur piece c,
  In piece (splitGo m s skip cur) -> In c piece -> In c s \/ In c cur.
Proof.
  induction s as [|a s IH]; intros skip cur piece c Hp Hc.
  - destruct Hp as [<-|[]]. right. now apply in_rev.
  - cbn [splitGo] in Hp. destruct skip as [|k].
    + destruct (m (a :: s)) as [|k].
      * destruct (IH _ _ _ _ Hp Hc) as [H|[<-|H]];
          [left; now right | left; now left | now right].
      * destruct Hp as [<-|Hp]; [right; now apply in_rev|].
        destruct (IH _ _ _ _ Hp Hc) as [H|[]]. left; now right.
    + destruct (IH _ _ _ _ Hp Hc) as [H|H]; [left; now right | now right].
Qed.

(** A piece holds no code unit at which the pattern matches... in
    particular the pieces of [/\s+/] hold no white space. *)
Lemma splitGo_no_match (s : str) : forall skip cur piece c,
  (forall t, (0 < m t)%nat <-> exists a t', t = a :: t' /\ isSpace a = true) ->
  Forall (fun c => isSpace c = false) cur ->
  In piece (splitGo m s skip cur) -> In c piece -> isSpace c = false.
Proof.
  intros skip cur piece c Hm. revert skip cur piece c.
  induction s as [|a s IH]; intros skip cur piece c Hcur Hp Hc.
  - destruct Hp as [<-|[]]. apply in_rev in Hc.
    rewrite Forall_forall in Hcur. auto.
  - cbn [splitGo] in Hp. destruct skip as [|k].
    + destruct (m (a :: s)) as [|k] eqn:E.
      * eapply IH; [|exact Hp|exact Hc]. constructor; auto.
        destruct (isSpace a) eqn:Ea; auto.
        assert (H : (0 < m (a :: s))%nat) by (apply Hm; eauto).
        rewrite E in H. lia.
      * destruct Hp as [<-|Hp].
        -- apply in_rev in Hc. rewrite Forall_forall in Hcur. auto.
        -- eapply IH; [|exact Hp|exact Hc]. constructor.
    + eapply IH; [exact Hcur|exact Hp|exact Hc].
Qed.
End Split.

End JsFacts.

(** ** The chunker *)

Module ChunkerFacts.
Import Aux JsFacts MyDataSource Spec.

Lemma join_cons (sep x : str) (l : list str) :
  l <> [] -> join sep (x :: l) = x ++ sep ++ join sep l.
Proof. destruct l; [congruence | reflexivity]. Qed.

Lemma join_app (sep : str) (l1 l2 : list str) :
  l1 <> [] -> l2 <> [] ->
  join sep (l1 ++ l2) = join sep l1 ++ sep ++ join sep l2.
Proof.
  intros H1 H2. induction l1 as [|x l1 IH]; [congruence|].
  destruct l1 as [|y l1].
  - cbn [app]. now rewrite join_cons.
  - change ((x :: y :: l1) ++ l2) with (x :: ((y :: l1) ++ l2)).
    rewrite join_cons by discriminate.
    rewrite IH by discriminate.
    rewrite (@join_cons sep x (y :: l1)) by discriminate.
    now rewrite <- !app_assoc.
Qed.

Lemma tight_join (l : list str) :
  l <> [] -> Forall tight l -> tight (J l).
Proof.
  intros Hn H. induction H as [|x l Hx Hl IH]; [congruence|].
  destruct l as [|y l]; [exact Hx|].
  rewrite join_cons by discriminate.
  apply tight_app; [exact Hx | apply IH; discriminate].
Qed.

Lemma truthy_join (l : list str) :
  Forall tight l -> truthy (J l) = match l with [] => false | _ => true end.
Proof.
  intros H. destruct l as [|x l]; [reflexivity|].
  apply truthy_true, tight_nonempty, tight_join; [discriminate | exact H].
Qed.

Lemma join_snoc (l : list str) (p : str) :
  Forall tight l ->
  J (l ++ [p]) = J l ++ (if truthy (J l) then blankLine else []) ++ p.
Proof.
  intros H. rewrite truthy_join by exact H.
  destruct l as [|x l]; [reflexivity|].
  now rewrite join_app by discriminate.
Qed.

Lemma join_concat (groups : list (list str)) :
  Forall (fun g => g <> []) groups -> J (map J groups) = J (concat groups).
Proof.
  induction 1 as [|g groups Hg Hgs IH]; [reflexivity|].
  destruct groups as [|g' groups].
  - cbn. now rewrite app_nil_r.
  - cbn [map] in *. rewrite join_cons by discriminate.
    rewrite IH.
    change (concat (g :: g' :: groups)) with (g ++ concat (g' :: groups)).
    rewrite (@join_app blankLine g (concat (g' :: groups)));
      [reflexivity | exact Hg |].
    inversion Hgs as [|? ? Hg' _]; subst.
    cbn [concat]. destruct g'; [congruence | discriminate].
Qed.

Lemma splitStep_trim (maxSize : Z) (st : list str * str) (p : str) :
  splitStep maxSize st (trim p) = splitStep maxSize st p.
Proof.
  unfold splitStep. destruct st as [chunks cur].
  now rewrite trim_idempotent.
Qed.

Lemma splitStep_blank (maxSize : Z) (st : list str * str) (p : str) :
  truthy (trim p) = false -> splitStep maxSize st p = st.
Proof.
  intros H. unfold splitStep. destruct st as [chunks cur].
  now rewrite H.
Qed.

(** The loop sees the trimmed, non-empty paragraphs only. *)
Lemma fold_paragraphs (maxSize : Z) (pieces : list str) :
  forall st,
    fold_left (splitStep maxSize) pieces st
    = fold_left (splitStep maxSize) (filter truthy (map trim pieces)) st.
Proof.
  induction pieces as [|p pieces IH]; intros st; [reflexivity|].
  cbn [map filter fold_left].
  destruct (truthy (trim p)) eqn:E.
  - cbn [fold_left]. rewrite splitStep_trim. apply IH.
  - rewrite splitStep_blank by exact E. apply IH.
Qed.

Lemma paragraphs_tight (text : str) : Forall tight (paragraphsOf text).
Proof.
  unfold paragraphsOf. apply Forall_forall. intros p Hp.
  apply filter_In in Hp. destruct Hp as [Hin Ht].
  apply in_map_iff in Hin. destruct Hin as [q [<- _]].
  destruct (trim_nil_or_tight q) as [E|T]; [|exact T].
  rewrite E in Ht. discriminate.
Qed.

(** The state of the loop is a grouping of the paragraphs seen so far: the
    closed groups are the chunks, the open group is the current chunk. *)
Lemma loop_groups (maxSize : Z) (ps : list str) :
  forall groups cg,
    Forall tight ps -> Forall goodGroup groups -> Forall tight cg ->
    exists groups' cg',
      fold_left (splitStep maxSize) ps (map J groups, J cg)
      = (map J groups', J cg')
      /\ concat groups' ++ cg' = (concat groups ++ cg) ++ ps
      /\ Forall goodGroup groups' /\ Forall tight cg'
      /\ (cg <> [] \/ ps <> [] -> cg' <> []).
Proof.
  induction ps as [|p ps IH]; intros groups cg Hps Hgs Hcg.
  - exists groups, cg. rewrite app_nil_r.
    repeat split; auto. intros [H|H]; congruence.
  - inversion Hps as [|? ? Hp Hps']; subst.
    cbn [fold_left]. unfold splitStep at 2.
    rewrite (trim_tight Hp).
    rewrite (proj2 (truthy_true p) (tight_nonempty Hp)). cbn [negb].
    destruct ((Z.of_nat (ceilDiv4 (length (J cg)) + ceilDiv4 (length p))
               >? maxSize)%Z && truthy (J cg)) eqn:E.
    + apply andb_prop in E. destruct E as [_ E].
      rewrite truthy_join in E by exact Hcg.
      assert (Hne : cg <> []) by (destruct cg; [discriminate|discriminate]).
      rewrite (trim_tight (tight_join Hne Hcg)).
      destruct (IH (groups ++ [cg]) [p]) as (groups' & cg' & H1 & H2 & H3 & H4 & H5).
      * exact Hps'.
      * apply Forall_app. split; [exact Hgs|]. constructor; [|constructor].
        split; assumption.
      * constructor; [exact Hp | constructor].
      * exists groups', cg'.
        rewrite map_app in H1. cbn [map] in H1.
        change (J [p]) with p in H1.
        split; [exact H1|]. split.
        { rewrite H2, concat_app. cbn [concat]. rewrite app_nil_r.
          now rewrite <- !app_assoc. }
        repeat split; auto. intros _. apply H5. left. discriminate.
    + rewrite <- join_snoc by exact Hcg.
      destruct (IH groups (cg ++ [p])) as (groups' & cg' & H1 & H2 & H3 & H4 & H5).
      * exact Hps'.
      * exact Hgs.
      * apply Forall_app. split; [exact Hcg|]. constructor; [exact Hp|constructor].
      * exists groups', cg'. split; [exact H1|]. split.
        { rewrite H2. now rewrite <- !app_assoc. }
        repeat split; auto. intros _. apply H5. left.
        destruct cg; discriminate.
Qed.

(** With a paragraph in the text, the loop ends with a current chunk that is
    not empty. *)
Lemma splitLoop_groups (text : str) (maxSize : Z) :
  paragraphsOf text <> [] ->
  exists groups cg,
    splitLoop text maxSize = (map J groups, J cg)
    /\ concat groups ++ cg = paragraphsOf text
    /\ Forall goodGroup groups /\ goodGroup cg.
Proof.
  intros Hne.
  destruct (@loop_groups maxSize (paragraphsOf text) [] [])
    as (groups & cg & H1 & H2 & H3 & H4 & H5);
    [apply paragraphs_tight | constructor | constructor |].
  exists groups, cg. split.
  - unfold splitLoop. rewrite fold_paragraphs. exact H1.
  - repeat split; auto.
Qed.

(** The chunks are then the paragraphs in groups, each group joined by blank
    lines. *)
Lemma splitIntoChunks_groups (text : str) (maxSize : Z) :
  paragraphsOf text <> [] ->
  exists groups,
    splitIntoChunks text maxSize = map J groups
    /\ concat groups = paragraphsOf text
    /\ Forall goodGroup groups.
Proof.
  intros Hne.
  destruct (@splitLoop_groups text maxSize Hne)
    as (groups & cg & HL & H2 & H3 & Hcg & H4).
  unfold splitIntoChunks. rewrite HL.
  rewrite (trim_tight (tight_join Hcg H4)).
  rewrite (proj2 (truthy_true _) (tight_nonempty (tight_join Hcg H4))).
  exists (groups ++ [cg]).
  assert (E : map J groups ++ [J cg] = map J (groups ++ [cg])).
  { now rewrite map_app. }
  rewrite E.
  destruct (map J (groups ++ [cg])) as [|c cs] eqn:Em.
  - apply map_eq_nil in Em. destruct groups; discriminate.
  - cbn [length Nat.ltb Nat.leb]. split; [reflexivity|]. split.
    + rewrite concat_app. cbn [concat]. now rewrite app_nil_r.
    + apply Forall_app. split; [exact H3|].
      constructor; [split; assumption | constructor].
Qed.

(** Without one, the loop leaves both [chunks] and [currentChunk] empty,
    and the text itself is the only chunk. *)
Lemma splitLoop_no_paragraph (text : str) (maxSize : Z) :
  paragraphsOf text = [] -> splitLoop text maxSize = ([], []).
Proof.
  intros E. unfold splitLoop. rewrite fold_paragraphs.
  unfold paragraphsOf in E. rewrite E. reflexivity.
Qed.

Lemma splitIntoChunks_no_paragraph (text : str) (maxSize : Z) :
  paragraphsOf text = [] -> splitIntoChunks text maxSize = [text].
Proof.
  intros E. unfold splitIntoChunks.
  rewrite (@splitLoop_no_paragraph text maxSize E). reflexivity.
Qed.

(** Nothing is pushed, in the loop or behind it, exactly when the text has
    no paragraph. *)
Lemma nothing_pushed_iff (text : str) (maxSize : Z) :
  (fst (splitLoop text maxSize) = []
   /\ truthy (trim (snd (splitLoop text maxSize))) = false)
  <-> paragraphsOf text = [].
Proof.
  split.
  - intros [_ Ht].
    destruct (paragraphsOf text) as [|p ps] eqn:E; [reflexivity|]. exfalso.
    assert (Hne : paragraphsOf text <> []) by (rewrite E; discriminate).
    destruct (@splitLoop_groups text maxSize Hne)
      as (groups & cg & HL & _ & _ & Hcg & H4).
    rewrite HL in Ht. cbn [snd] in Ht.
    rewrite (trim_tight (tight_join Hcg H4)) in Ht.
    rewrite (proj2 (truthy_true _) (tight_nonempty (tight_join Hcg H4))) in Ht.
    discriminate.
  - intros E. rewrite (@splitLoop_no_paragraph text maxSize E). now split.
Qed.

(** A text has a paragraph exactly when it is not all white space. *)
Lemma paragraphs_nil_iff (text : str) :
  paragraphsOf text = [] <-> Forall (fun c => isSpace c = true) text.
Proof.
  split.
  - intros E. apply Forall_forall. intros c Hc.
    destruct (isSpace c) eqn:Ec; [reflexivity|]. exfalso.
    destruct (@splitGo_covers matchBlankLines matchBlankLines_space
                text 0 [] c) as [piece [Hp Hin]];
      [constructor | now left | exact Ec |].
    assert (Ht : In (trim piece) (paragraphsOf text)).
    { unfold paragraphsOf. apply filter_In. split.
      - apply in_map. exact Hp.
      - apply truthy_true. intros Et. apply trim_nil_all_spaces in Et.
        rewrite Forall_forall in Et. rewrite (Et c Hin) in Ec. discriminate. }
    rewrite E in Ht. exact Ht.
  - intros Hall. unfold paragraphsOf.
    destruct (filter truthy (map trim (split matchBlankLines text)))
      as [|p ps] eqn:E; [reflexivity|]. exfalso.
    assert (Hp : In p (p :: ps)) by now left.
    rewrite <- E in Hp. apply filter_In in Hp. destruct Hp as [Hin Ht].
    apply in_map_iff in Hin. destruct Hin as [q [<- Hq]].
    rewrite trim_all_spaces in Ht; [discriminate|].
    apply Forall_forall. intros c Hc.
    destruct (splitGo_from_input _ _ _ _ _ _ Hq Hc) as [H|[]].
    rewrite Forall_forall in Hall. auto.
Qed.

End ChunkerFacts.

(** ** The chunk store *)

Module StoreFacts.
Import Aux MyDataSource Spec.

Lemma fold_left_ext (A B : Type) (f g : A -> B -> A) :
  (forall a x, f a x = g a x) ->
  forall l a, fold_left f l a = fold_left g l a.
Proof.
  intros H l. induction l as [|x l IH]; intros a; cbn [fold_left].
  - reflexivity.
  - now rewrite H, IH.
Qed.

Lemma fold_push (A B : Type) (f : A -> B) (l : list A) :
  forall acc, fold_left (fun acc x => acc ++ [f x]) l acc = acc ++ map f l.
Proof.
  induction l as [|x l IH]; intros acc; cbn [fold_left map].
  - now rewrite app_nil_r.
  - rewrite IH, <- app_assoc. reflexivity.
Qed.

Lemma fold_push_all (A B : Type) (f : A -> list B) (l : list A) :
  forall acc,
    fold_left (fun acc x => acc ++ f x) l acc = acc ++ concat (map f l).
Proof.
  induction l as [|x l IH]; intros acc; cbn [fold_left map concat].
  - now rewrite app_nil_r.
  - rewrite IH, <- app_assoc. reflexivity.
Qed.

Lemma chunkDocuments_concat (config : RetrievalConfig.t)
  (documents : list Document.t) :
  chunkDocuments config documents
  = concat (map (docChunks (RetrievalConfig.maxChunkSize config)) documents).
Proof.
  unfold chunkDocuments.
  rewrite <- (app_nil_l (concat _)), <- fold_push_all.
  apply fold_left_ext. intros chunks doc.
  unfold docChunks.
  rewrite <- fold_push. apply fold_left_ext. now intros acc [index chunk].
Qed.

Lemma indexedFrom_length (A : Type) (l : list A) :
  forall i, length (indexedFrom i l) = length l.
Proof. induction l as [|x l IH]; intros i; cbn; auto. Qed.

Lemma indexedFrom_nth (A : Type) (l : list A) :
  forall i k x, nth_error l k = Some x ->
    nth_error (indexedFrom i l) k = Some ((i + k)%nat, x).
Proof.
  induction l as [|y l IH]; intros i k x H.
  - destruct k; discriminate.
  - destruct k as [|k]; cbn in *.
    + injection H as ->. now rewrite Nat.add_0_r.
    + rewrite (IH (S i) k x H). f_equal. f_equal. lia.
Qed.

Lemma docChunks_chunksOf (maxSize : Z) (doc : Document.t) :
  chunksOf maxSize doc (docChunks maxSize doc).
Proof.
  unfold chunksOf, docChunks. split.
  - rewrite length_map. apply indexedFrom_length.
  - intros i text H. unfold indexed.
    rewrite nth_error_map, (indexedFrom_nth _ 0 _ H). reflexivity.
Qed.

Lemma chunksOf_bound (maxSize : Z) (doc : Document.t)
  (group : list DocumentChunk.t) :
  chunksOf maxSize doc group ->
  Forall (fun c => (0 <= DocumentChunk.chunkIndex c
                    < DocumentChunk.totalChunks c)%nat) group.
Proof.
  intros [Hlen Hnth]. apply Forall_forall. intros c Hc.
  apply In_nth_error in Hc. destruct Hc as [i Hi].
  assert (Hlt : (i < length group)%nat).
  { apply nth_error_Some. congruence. }
  rewrite Hlen in Hlt.
  destruct (nth_error (splitIntoChunks (Document.content doc) maxSize) i)
    as [text|] eqn:E.
  - rewrite (Hnth i text E) in Hi. injection Hi as <-. cbn. lia.
  - apply nth_error_None in E. lia.
Qed.

(** What every state of an index satisfies: the chunk store is derived from
    the document store, with the configuration of the index. *)
Lemma reachable_invariant (self : t) :
  reachable self ->
  _chunks self = chunkDocuments (_config self) (_data self).
Proof.
  induction 1 as [name config|dir self _ IH].
  - reflexivity.
  - destruct dir as [files|]; cbn [init]; [reflexivity | exact IH].
Qed.

End StoreFacts.

(** ** Search and rendering *)

Module SearchFacts.
Import Aux JsFacts ChunkerFacts MyDataSource Spec.

Lemma length_zero (A : Type) (l : list A) :
  (length l =? 0)%nat = match l with [] => true | _ => false end.
Proof. destruct l; reflexivity. Qed.

Lemma slice0_nil (A : Type) (k : Z) : slice0 k (@nil A) = [].
Proof. unfold slice0. apply firstn_nil. Qed.

(** The three ways through [search]. *)
Lemma search_empty_query (self : t) : search self [] = [].
Proof. reflexivity. Qed.

Lemma search_fallback (self : t) (query : str) :
  query <> [] -> extractKeywords query = [] ->
  search self query =
    match _data self with
    | first :: _ =>
        [SearchResult.mk (Document.content first) (Document.citation first)
                         fallbackScore]
    | [] => []
    end.
Proof.
  intros Hq Hk. unfold search.
  rewrite (proj2 (truthy_true query) Hq), Hk. reflexivity.
Qed.

Lemma search_scored (self : t) (query : str) :
  extractKeywords query <> [] ->
  search self query =
    map (fun sc =>
           SearchResult.mk (DocumentChunk.content (ScoredChunk.chunk sc))
                           (DocumentChunk.citation (ScoredChunk.chunk sc))
                           (ScoredChunk.score sc))
      (slice0 (RetrievalConfig.topK (_config self))
         (sort (fun a b => ScoredChunk.score b - ScoredChunk.score a)
            (filter (fun sc => geb (ScoredChunk.score sc)
                                   (RetrievalConfig.minScore (_config self)))
               (map (fun chunk =>
                       ScoredChunk.mk chunk
                         (calculateScore (DocumentChunk.content chunk)
                                         (extractKeywords query)))
                    (_chunks self))))).
Proof.
  intros Hk. unfold search.
  destruct query as [|c q]; [exfalso; apply Hk; reflexivity|].
  cbn [truthy negb]. rewrite length_zero.
  destruct (extractKeywords (c :: q)); [congruence | reflexivity].
Qed.

(** An index without documents and chunks finds nothing. *)
Lemma search_nothing_loaded (self : t) (query : str) :
  _data self = [] -> _chunks self = [] -> search self query = [].
Proof.
  intros Hd Hc.
  destruct query as [|c q]; [reflexivity|].
  destruct (extractKeywords (c :: q)) as [|k ks] eqn:E.
  - rewrite search_fallback; [|discriminate|exact E].
    now rewrite Hd.
  - rewrite search_scored by (rewrite E; discriminate).
    rewrite Hc. cbn [map filter sort fold_right]. now rewrite slice0_nil.
Qed.

(** The loop of [renderContext]. *)
Lemma render_loop (block : SearchResult.t -> str) (rs : list SearchResult.t) :
  forall content sources,
    fold_left
      (fun '(contextContent, sources) result =>
         (contextContent ++ block result ++ blankLine,
          sources ++ [SearchResult.citation result]))
      rs (content, sources)
    = (content ++ concat (map (fun r => block r ++ blankLine) rs),
       sources ++ map SearchResult.citation rs).
Proof.
  induction rs as [|r rs IH]; intros content sources; cbn [fold_left map concat].
  - now rewrite !app_nil_r.
  - rewrite IH, <- !app_assoc. reflexivity.
Qed.

Lemma concat_blocks (l : list str) :
  l <> [] ->
  concat (map (fun b => b ++ blankLine) l) = join blankLine l ++ blankLine.
Proof.
  induction l as [|b l IH]; [congruence|]. intros _.
  destruct l as [|b' l].
  - cbn. now rewrite app_nil_r.
  - assert (Hne : b' :: l <> []) by discriminate.
    specialize (IH Hne). cbn [map concat] in IH |- *.
    rewrite IH, (@join_cons blankLine b (b' :: l) Hne).
    now rewrite <- !app_assoc.
Qed.

Lemma blankLine_space : Forall (fun c => isSpace c = true) blankLine.
Proof. repeat constructor. Qed.

Lemma contextBlock_tight (r : SearchResult.t) : tight (contextBlock r).
Proof.
  assert (E : contextBlock r
              = lit "<context source="
                ++ ([dquote] ++ SearchResult.citation r ++ [dquote]
                    ++ lit ">" ++ [nl] ++ SearchResult.content r ++ [nl])
                ++ lit "</context>").
  { unfold contextBlock. now rewrite <- !app_assoc. }
  rewrite E. apply tight_app; split; reflexivity.
Qed.

End SearchFacts.

(** ** Sorting by score *)

Module SortFacts.
Import Aux.

Lemma gtb_true (x y : R) : gtb x y = true <-> x > y.
Proof. unfold gtb. destruct (Rgt_dec x y); split; (congruence || auto). Qed.

Lemma gtb_false (x y : R) : gtb x y = false <-> x <= y.
Proof.
  unfold gtb. destruct (Rgt_dec x y); split; try congruence; try lra.
Qed.

Lemma geb_true (x y : R) : geb x y = true <-> x >= y.
Proof. unfold geb. destruct (Rge_dec x y); split; (congruence || auto). Qed.

Section ByKey.
Variable A : Type.
Variable key : A -> R.

Lemma hasKey_true (s : R) (a : A) : hasKey key s a = true <-> key a = s.
Proof.
  unfold hasKey. destruct (Req_dec_T (key a) s); split; (congruence || auto).
Qed.

Lemma insertSorted_In (a x : A) (l : list A) :
  In x (insertSorted (descending key) a l) <-> x = a \/ In x l.
Proof.
  induction l as [|b l IH]; cbn [insertSorted].
  - cbn. intuition.
  - destruct (gtb ((descending key) a b) 0); cbn [In]; [rewrite IH|]; intuition.
Qed.

Lemma insertSorted_sorted (a : A) (l : list A) :
  sortedDown key l -> sortedDown key (insertSorted (descending key) a l).
Proof.
  induction 1 as [|b l Hl IH Hb]; cbn [insertSorted].
  - repeat constructor.
  - destruct (gtb ((descending key) a b) 0) eqn:E.
    + apply gtb_true in E. unfold descending in E.
      constructor; [exact IH|].
      apply Forall_forall. intros x Hx. apply insertSorted_In in Hx.
      destruct Hx as [->|Hx]; [lra|].
      rewrite Forall_forall in Hb. auto.
    + apply gtb_false in E. unfold descending in E.
      constructor; [now constructor|].
      constructor; [lra|].
      eapply Forall_impl; [|exact Hb]. intros x Hx. cbv beta in *. lra.
Qed.

Lemma sort_sorted (l : list A) : sortedDown key (sort (descending key) l).
Proof.
  induction l as [|a l IH]; cbn [sort fold_right].
  - constructor.
  - now apply insertSorted_sorted.
Qed.

Lemma sort_In (x : A) (l : list A) : In x (sort (descending key) l) <-> In x l.
Proof.
  induction l as [|a l IH]; cbn [sort fold_right]; [reflexivity|].
  fold (sort (descending key) l). rewrite insertSorted_In, IH. cbn. intuition.
Qed.

(** The sort is stable: the elements of one key keep their order. *)
Lemma insertSorted_stable (s : R) (a : A) (l : list A) :
  filter (hasKey key s) (insertSorted (descending key) a l)
  = filter (hasKey key s) (a :: l).
Proof.
  induction l as [|b l IH]; [reflexivity|]. cbn [insertSorted].
  destruct (gtb ((descending key) a b) 0) eqn:E; [|reflexivity].
  apply gtb_true in E. unfold descending in E.
  cbn [filter] in *. rewrite IH.
  destruct (hasKey key s a) eqn:Ea, (hasKey key s b) eqn:Eb; try reflexivity.
  apply hasKey_true in Ea, Eb. lra.
Qed.

Lemma sort_stable (s : R) (l : list A) :
  filter (hasKey key s) (sort (descending key) l) = filter (hasKey key s) l.
Proof.
  induction l as [|a l IH]; [reflexivity|]. cbn [sort fold_right].
  fold (sort (descending key) l). rewrite insertSorted_stable.
  cbn [filter]. now rewrite IH.
Qed.

Lemma sortedDown_firstn (n : nat) (l : list A) :
  sortedDown key l -> sortedDown key (firstn n l).
Proof.
  intros H. revert n. induction H as [|a l Hl IH Ha]; intros n.
  - rewrite firstn_nil. constructor.
  - destruct n as [|n]; cbn [firstn]; [constructor|].
    constructor; [apply IH|].
    apply Forall_forall. intros x Hx.
    rewrite Forall_forall in Ha. apply Ha.
    rewrite <- (firstn_skipn n l). apply in_or_app. now left.
Qed.
End ByKey.

Lemma slice0_firstn (A : Type) (k : Z) (l : list A) :
  exists n, slice0 k l = firstn n l /\ ((0 <= k)%Z -> (Z.of_nat n <= k)%Z).
Proof.
  unfold slice0. eexists. split; [reflexivity|]. intros Hk.
  destruct (k <? 0)%Z eqn:E; [apply Z.ltb_lt in E; lia|]. lia.
Qed.

Lemma filter_firstn_prefix (A : Type) (p : A -> bool) (n : nat) (l : list A) :
  filter p l = filter p (firstn n l) ++ filter p (skipn n l).
Proof. now rewrite <- filter_app, firstn_skipn. Qed.

Lemma filter_map_swap (A B : Type) (f : A -> B) (p : B -> bool) (l : list A) :
  filter p (map f l) = map f (filter (fun a => p (f a)) l).
Proof.
  induction l as [|a l IH]; [reflexivity|]. cbn [map filter].
  destruct (p (f a)); cbn [map]; now rewrite IH.
Qed.

Lemma filter_filter_implied (A : Type) (p q : A -> bool) (l : list A) :
  (forall a, p a = true -> q a = true) ->
  filter p (filter q l) = filter p l.
Proof.
  intros H. induction l as [|a l IH]; [reflexivity|]. cbn [filter].
  destruct (q a) eqn:Eq; cbn [filter].
  - now rewrite IH.
  - destruct (p a) eqn:Ep; [|exact IH].
    rewrite (H a Ep) in Eq. discriminate.
Qed.

Lemma filter_none (A : Type) (p : A -> bool) (l : list A) :
  Forall (fun a => p a = false) l -> filter p l = [].
Proof.
  induction 1 as [|a l Ha _ IH]; [reflexivity|]. cbn [filter].
  now rewrite Ha.
Qed.

Lemma StronglySorted_map (A B : Type) (f : A -> B)
  (R1 : A -> A -> Prop) (R2 : B -> B -> Prop) (l : list A) :
  (forall a b, R1 a b -> R2 (f a) (f b)) ->
  StronglySorted R1 l -> StronglySorted R2 (map f l).
Proof.
  intros H. induction 1 as [|a l Hl IH Ha]; cbn [map]; constructor.
  - exact IH.
  - apply Forall_forall. intros y Hy. apply in_map_iff in Hy.
    destruct Hy as [x [<- Hx]]. rewrite Forall_forall in Ha. auto.
Qed.

End SortFacts.

(** ** The keywords *)

Module KeywordFacts.
Import Aux JsFacts MyDataSource Spec.

Lemma lowerChar_idempotent (c : ascii) : lowerChar (lowerChar c) = lowerChar c.
Proof. each_ascii c; reflexivity. Qed.


Lemma lowerChar_word (c : ascii) : isWord (lowerChar c) = isWord c.
Proof. each_ascii c; reflexivity. Qed.

Lemma word_not_space (c : ascii) : isWord c = true -> isSpace c = false.
Proof. each_ascii c; cbv; congruence. Qed.


Lemma matchSpaces_positive (t : str) :
  (0 < matchSpaces t)%nat <-> exists a t', t = a :: t' /\ isSpace a = true.
Proof.
  unfold matchSpaces. destruct t as [|a t]; cbn [takeWhile length].
  - split; [lia | intros (a & t' & H & _); discriminate].
  - destruct (isSpace a) eqn:E; cbn [length].
    + split; [eauto | lia].
    + split; [lia | intros (b & t' & H & Hb); congruence].
Qed.

(** The pieces that [extractKeywords] filters are made of lower-case word
    characters. *)
Lemma pieces_lowWord (query piece : str) :
  In piece (split matchSpaces
              (replaceNonWordNonSpace " " (toLowerCase query))) ->
  Forall lowWord piece.
Proof.
  intros Hp. apply Forall_forall. intros c Hc.
  assert (Hns : isSpace c = false).
  { eapply splitGo_no_match;
      [apply matchSpaces_positive | constructor | exact Hp | exact Hc]. }
  destruct (splitGo_from_input _ _ _ _ _ _ Hp Hc) as [Hin|[]].
  unfold replaceNonWordNonSpace, toLowerCase in Hin. rewrite map_map in Hin.
  apply in_map_iff in Hin. destruct Hin as [c0 [Hc0 _]].
  destruct (isWord (lowerChar c0) || isSpace (lowerChar c0)) eqn:E.
  - subst c. apply orb_prop in E. destruct E as [E|E]; [|congruence].
    split; [exact E | apply lowerChar_idempotent].
  - subst c. discriminate.
Qed.

Lemma extractKeywords_tokens (query : str) :
  Forall token (extractKeywords query).
Proof.
  apply Forall_forall. intros w Hw. unfold extractKeywords in Hw.
  apply filter_In in Hw. destruct Hw as [Hin Hf].
  apply andb_prop in Hf. destruct Hf as [Hlen _].
  split.
  - intros ->. discriminate.
  - eapply pieces_lowWord. exact Hin.
Qed.

(** The keywords are word tokens. *)
Lemma extractKeywords_wordTokens (query : str) :
  Forall wordToken (extractKeywords query).
Proof.
  eapply Forall_impl; [|apply extractKeywords_tokens].
  intros w [Hne Hw]. split; [exact Hne|].
  eapply Forall_impl; [|exact Hw]. now intros c [Hc _].
Qed.

Lemma splitGo_word (w : str) : forall rest cur,
  Forall (fun c => isSpace c = false) w ->
  splitGo matchSpaces (w ++ rest) 0 cur
  = splitGo matchSpaces rest 0 (rev w ++ cur).
Proof.
  induction w as [|c w IH]; intros rest cur Hw; [reflexivity|].
  inversion Hw as [|? ? Hc Hw']; subst.
  cbn [app splitGo]. unfold matchSpaces at 1. cbn [takeWhile].
  rewrite Hc. cbn [length]. rewrite IH by exact Hw'.
  cbn [rev]. now rewrite <- app_assoc.
Qed.

(** Splitting the tokens joined by single spaces gives the tokens back. *)
Lemma split_join_tokens (ts : list str) :
  ts <> [] -> Forall token ts -> split matchSpaces (join space ts) = ts.
Proof.
  assert (Hns : forall t, token t -> Forall (fun c => isSpace c = false) t).
  { intros t [_ Ht]. eapply Forall_impl; [|exact Ht].
    intros c [Hc _]. now apply word_not_space. }
  unfold split. intros Hne H. induction H as [|t ts Ht Hts IH]; [congruence|].
  destruct ts as [|t' ts].
  - cbn [join]. rewrite <- (app_nil_r t) at 1.
    rewrite splitGo_word by auto. cbn [splitGo].
    now rewrite app_nil_r, rev_involutive.
  - rewrite ChunkerFacts.join_cons by discriminate.
    rewrite splitGo_word by auto. rewrite app_nil_r.
    inversion Hts as [|? ? Ht' _]; subst.
    destruct t' as [|c t']; [destruct Ht' as [Hn _]; congruence|].
    assert (Hc : isSpace c = false).
    { pose proof (Hns _ Ht') as Hn. now inversion Hn. }
    set (j := join space _) in *.
    assert (Hm : matchSpaces (" "%char :: j) = 1%nat).
    { subst j. unfold matchSpaces.
      destruct ts; cbn [join app takeWhile];
        change (isSpace " ") with true; cbv iota; now rewrite Hc. }
    change (space ++ j) with (" "%char :: j).
    cbn [splitGo]. rewrite Hm.
    rewrite rev_involutive. f_equal. apply IH. discriminate.
Qed.

Lemma toLowerCase_join_tokens (ts : list str) :
  Forall token ts -> toLowerCase (join space ts) = join space ts.
Proof.
  intros H. unfold toLowerCase.
  assert (Hall : Forall (fun c => lowerChar c = c) (join space ts)).
  { induction H as [|t ts [_ Ht] _ IH]; [constructor|].
    assert (Ht' : Forall (fun c => lowerChar c = c) t).
    { eapply Forall_impl; [|exact Ht]. now intros c [_ Hc]. }
    destruct ts as [|t' ts]; [exact Ht'|].
    rewrite ChunkerFacts.join_cons by discriminate.
    apply Forall_app. split; [exact Ht'|].
    apply Forall_app. split; [repeat constructor | exact IH]. }
  induction Hall as [|c l Hc _ IH]; [reflexivity|].
  cbn [map]. now rewrite Hc, IH.
Qed.

Lemma replace_join_tokens (ts : list str) :
  Forall token ts ->
  replaceNonWordNonSpace " " (join space ts) = join space ts.
Proof.
  intros H. unfold replaceNonWordNonSpace.
  assert (Hall : Forall (fun c => isWord c || isSpace c = true)
                        (join space ts)).
  { induction H as [|t ts [_ Ht] _ IH]; [constructor|].
    assert (Ht' : Forall (fun c => isWord c || isSpace c = true) t).
    { eapply Forall_impl; [|exact Ht]. intros c [Hc _]. now rewrite Hc. }
    destruct ts as [|t' ts]; [exact Ht'|].
    rewrite ChunkerFacts.join_cons by discriminate.
    apply Forall_app. split; [exact Ht'|].
    apply Forall_app. split; [repeat constructor | exact IH]. }
  induction Hall as [|c l Hc _ IH]; [reflexivity|].
  cbn [map]. now rewrite Hc, IH.
Qed.

Lemma tokenb_token (w : str) : tokenb w = true -> token w.
Proof.
  unfold tokenb. intros H. apply andb_prop in H. destruct H as [Hn Hw].
  split; [now apply truthy_true|].
  apply Forall_forall. intros c Hc.
  rewrite forallb_forall in Hw. specialize (Hw c Hc).
  apply andb_prop in Hw. destruct Hw as [H1 H2].
  split; [exact H1 | now apply Ascii.eqb_eq].
Qed.

Lemma stop_words_tokens : Forall token STOP_WORDS.
Proof.
  apply Forall_forall. intros w Hw. apply tokenb_token.
  assert (H : forallb tokenb STOP_WORDS = true) by (vm_compute; reflexivity).
  rewrite forallb_forall in H. auto.
Qed.

Lemma has_In (set : list str) (w : str) : In w set -> has set w = true.
Proof.
  intros H. unfold has. apply existsb_exists. exists w. split; [exact H|].
  unfold eqbStr. destruct (list_eq_dec ascii_dec w w); congruence.
Qed.

Lemma In_has (set : list str) (w : str) : has set w = true -> In w set.
Proof.
  unfold has. intros H. apply existsb_exists in H.
  destruct H as [x [Hx E]]. unfold eqbStr in E.
  destruct (list_eq_dec ascii_dec w x); [now subst | discriminate].
Qed.

(** A query of stop words, a single space between two, has no keyword. *)
Lemma extractKeywords_stop_words (ws : list str) :
  Forall (fun w => In w STOP_WORDS) ws ->
  extractKeywords (join space ws) = [].
Proof.
  intros H.
  assert (Ht : Forall token ws).
  { eapply Forall_impl; [|exact H]. intros w Hw.
    pose proof stop_words_tokens as Hs. rewrite Forall_forall in Hs. auto. }
  destruct ws as [|w ws]; [reflexivity|].
  unfold extractKeywords.
  rewrite toLowerCase_join_tokens by exact Ht.
  rewrite replace_join_tokens by exact Ht.
  rewrite split_join_tokens; [|discriminate|exact Ht].
  apply SortFacts.filter_none.
  eapply Forall_impl; [|exact H]. intros x Hx. cbv beta in *.
  rewrite (has_In _ _ Hx). cbn [negb]. apply andb_false_r.
Qed.

Lemma join_tokens_nonempty (ws : list str) :
  ws <> [] -> Forall token ws -> join space ws <> [].
Proof.
  intros Hne H. destruct H as [|w ws [Hw _] _]; [congruence|].
  destruct ws as [|w' ws]; [exact Hw|].
  rewrite ChunkerFacts.join_cons by discriminate.
  destruct w; [congruence | discriminate].
Qed.


End KeywordFacts.

(** ** The scorer *)

Module ScoreFacts.
Import Aux JsFacts KeywordFacts MyDataSource Spec.
Import Regex.

Lemma canonicalize_lowerChar (c : ascii) :
  canonicalize (lowerChar c) = canonicalize c.
Proof. each_ascii c; reflexivity. Qed.

Lemma lowerChar_canonicalize (c : ascii) :
  lowerChar (canonicalize c) = lowerChar c.
Proof. each_ascii c; reflexivity. Qed.

(** Over the lower-cased content, the comparison of the regular expression
    is the comparison of letters, case aside. *)
Lemma canonical_sameLetter (k c : ascii) :
  eqbChar (canonicalize k) (canonicalize (lowerChar c)) = sameLetter k c.
Proof.
  unfold sameLetter, eqbChar. rewrite canonicalize_lowerChar.
  destruct (Ascii.eqb (lowerChar k) (lowerChar c)) eqn:E.
  - apply Ascii.eqb_eq in E. apply Ascii.eqb_eq.
    rewrite <- (canonicalize_lowerChar k), E. apply canonicalize_lowerChar.
  - apply Ascii.eqb_neq in E. apply Ascii.eqb_neq. intros H. apply E.
    rewrite <- (lowerChar_canonicalize k), H. apply lowerChar_canonicalize.
Qed.

Lemma sameLetter_word (k c : ascii) :
  sameLetter k c = true -> isWord c = isWord k.
Proof.
  unfold sameLetter, eqbChar. intros E. apply Ascii.eqb_eq in E.
  now rewrite <- (lowerChar_word c), <- E, lowerChar_word.
Qed.

Lemma isWordAt_lower (c : option ascii) : isWordAt (lowerOpt c) = isWordAt c.
Proof. destruct c as [c|]; [apply lowerChar_word | reflexivity]. Qed.

Lemma hd_error_lower (s : str) :
  hd_error (toLowerCase s) = lowerOpt (hd_error s).
Proof. destruct s; reflexivity. Qed.

Section Keyword.
Variable kw : str.

(** Behind a matched word character, the rest of the pattern. *)
Lemma matchLiteral_spec : forall (w s : str) (prev : option ascii),
  Forall (fun c => isWord c = true) w ->
  (w = [] -> isWordAt prev = true) ->
  matchLiteral w (toLowerCase s) prev
  = prefixIgnoringCase w s && negb (isWordAt (nth_error s (length w))).
Proof.
  induction w as [|k w IH]; intros s prev Hw Hprev.
  - cbn [matchLiteral prefixIgnoringCase length andb].
    unfold wordBoundary. rewrite Hprev by reflexivity.
    rewrite hd_error_lower, isWordAt_lower.
    destruct s; reflexivity.
  - inversion Hw as [|? ? Hk Hw']; subst.
    destruct s as [|c s]; [reflexivity|].
    cbn [toLowerCase map matchLiteral prefixIgnoringCase length nth_error].
    rewrite canonical_sameLetter.
    destruct (sameLetter k c) eqn:E; [|reflexivity].
    cbn [andb]. apply (IH s (Some (lowerChar c)) Hw').
    intros _. cbn [isWordAt]. rewrite lowerChar_word.
    now rewrite (sameLetter_word _ _ E).
Qed.

Hypothesis kw_token : wordToken kw.

(** For a word token, a match of the pattern in the lower-cased content is
    a whole-word occurrence in the content. *)
Lemma matchAt_spec (prev : option ascii) (s : str) :
  matchAt kw (lowerOpt prev) (toLowerCase s) = wholeWordAt kw prev s.
Proof.
  destruct kw_token as [Hne Hw]. unfold matchAt, wholeWordAt.
  destruct kw as [|k w]; [congruence|].
  inversion Hw as [|? ? Hk Hw']; subst.
  destruct s as [|c s].
  - cbn. now rewrite !andb_false_r.
  - cbn [toLowerCase map matchLiteral prefixIgnoringCase length nth_error
         hd_error].
    rewrite canonical_sameLetter.
    destruct (sameLetter k c) eqn:E;
      [|now rewrite andb_false_r, andb_false_r].
    assert (Hc : isWord c = true) by now rewrite (sameLetter_word _ _ E).
    unfold wordBoundary. cbn [isWordAt]. rewrite lowerChar_word, Hc.
    rewrite isWordAt_lower, xorb_true_r. cbn [andb].
    rewrite <- andb_assoc. f_equal.
    apply (@matchLiteral_spec w s (Some (lowerChar c)) Hw').
    intros _. cbn [isWordAt]. now rewrite lowerChar_word.
Qed.

Lemma prefix_word : forall (w s : str),
  Forall (fun c => isWord c = true) w ->
  prefixIgnoringCase w s = true ->
  Forall (fun c => isWord c = true) (firstn (length w) s).
Proof.
  induction w as [|k w IH]; intros s Hw Hp; [constructor|].
  inversion Hw as [|? ? Hk Hw']; subst.
  destruct s as [|c s]; [discriminate|].
  cbn [prefixIgnoringCase] in Hp. apply andb_prop in Hp.
  destruct Hp as [E Hp]. cbn [length firstn]. constructor.
  - now rewrite (sameLetter_word _ _ E).
  - now apply IH.
Qed.

Lemma not_whole_word_behind_word (prev : option ascii) (s : str) :
  isWordAt prev = true -> wholeWordAt kw prev s = false.
Proof. intros H. unfold wholeWordAt. now rewrite H. Qed.

(** The scan with its skips counts every whole-word occurrence: none
    starts inside a match, where the code unit before is a word
    character. *)
Lemma countGo_spec : forall (s : str) (prev : option ascii) (skip : nat),
  (0 < skip -> isWordAt prev = true)%nat ->
  Forall (fun c => isWord c = true) (firstn skip s) ->
  countGo kw (lowerOpt prev) (toLowerCase s) skip
  = wholeWordsFrom kw prev s.
Proof.
  induction s as [|c s IH]; intros prev skip Hprev Hskip.
  - cbn [toLowerCase map countGo wholeWordsFrom].
    destruct skip as [|k].
    + change (@nil ascii) with (toLowerCase []) at 1.
      rewrite matchAt_spec. now rewrite Nat.add_0_r.
    + rewrite not_whole_word_behind_word by (apply Hprev; lia).
      reflexivity.
  - cbn [toLowerCase map countGo wholeWordsFrom].
    fold (toLowerCase s). change (Some (lowerChar c)) with (lowerOpt (Some c)).
    destruct skip as [|k].
    + change (lowerChar c :: toLowerCase s) with (toLowerCase (c :: s)).
      rewrite matchAt_spec.
      destruct (wholeWordAt kw prev (c :: s)) eqn:E.
      * cbn [Nat.add]. f_equal.
        unfold wholeWordAt in E. apply andb_prop in E. destruct E as [E _].
        apply andb_prop in E. destruct E as [_ E].
        destruct kw_token as [Hne Hw].
        pose proof (prefix_word _ Hw E) as Hf.
        destruct kw as [|k0 w]; [congruence|].
        cbn [length firstn pred] in *.
        inversion Hf as [|? ? Hc Hf']; subst.
        apply IH; [intros _; exact Hc | exact Hf'].
      * cbn [Nat.add]. apply IH; [lia | constructor].
    + rewrite not_whole_word_behind_word by (apply Hprev; lia).
      cbn [Nat.add firstn] in *.
      inversion Hskip as [|? ? Hc Hk]; subst.
      apply IH; [intros _; exact Hc | exact Hk].
Qed.

(** The number of matches is the number of whole-word occurrences. *)
Lemma countMatches_occurrences (content : str) :
  countMatches kw (toLowerCase content) = occurrences kw content.
Proof.
  unfold countMatches, occurrences.
  change (@None ascii) with (lowerOpt None) at 1.
  apply countGo_spec; [lia | constructor].
Qed.
End Keyword.

(** The loop of [calculateScore]. *)
Lemma score_loop (count : str -> nat) (ks : list str) :
  forall (score : R) (matched : nat),
    fold_left
      (fun (st : R * nat) keyword =>
         let '(score, matchedKeywords) := st in
         if (0 <? count keyword)%nat
         then (score + ln (1 + INR (count keyword)), S matchedKeywords)
         else st)
      ks (score, matched)
    = (score
       + sum (map (fun k => ln (1 + INR (count k)))
                  (filter (fun k => (0 <? count k)%nat) ks)),
       (matched + length (filter (fun k => (0 <? count k)%nat) ks))%nat).
Proof.
  induction ks as [|k ks IH]; intros score matched; cbn [fold_left filter].
  - cbn [map sum fold_right length]. f_equal; [lra | lia].
  - destruct (0 <? count k)%nat.
    + rewrite IH. cbn [map sum fold_right length]. fold (sum).
      f_equal; [|lia].
      change (fold_right Rplus 0) with sum. lra.
    + apply IH.
Qed.

Lemma calculateScore_loop (content : str) (ks : list str) :
  ks <> [] ->
  calculateScore content ks
  = scoreFormula (fun k => countMatches k (toLowerCase content)) ks.
Proof.
  intros Hne. unfold calculateScore, scoreFormula.
  destruct ks as [|k ks]; [congruence|].
  cbn [length Nat.eqb]. unfold scoreStep.
  rewrite (score_loop (fun k => countMatches k (toLowerCase content))).
  cbn [Nat.add]. now rewrite Rplus_0_l.
Qed.

Lemma scoreFormula_ext (count count' : str -> nat) (ks : list str) :
  Forall (fun k => count k = count' k) ks ->
  scoreFormula count ks = scoreFormula count' ks.
Proof.
  intros H. unfold scoreFormula.
  assert (Hfilter : filter (fun k => (0 <? count k)%nat) ks
                    = filter (fun k => (0 <? count' k)%nat) ks).
  { apply filter_ext_in. intros k Hk. rewrite Forall_forall in H.
    now rewrite (H k Hk). }
  rewrite Hfilter. f_equal. f_equal. f_equal.
  apply map_ext_in. intros k Hk. apply filter_In in Hk.
  destruct Hk as [Hk _]. rewrite Forall_forall in H. now rewrite (H k Hk).
Qed.

(** A single keyword that occurs: the score is the logarithm alone. *)
Lemma calculateScore_single (content kw : str) (n : nat) :
  wordToken kw -> occurrences kw content = S n ->
  calculateScore content [kw] = ln (1 + INR (S n)).
Proof.
  intros Hkw Hn. rewrite calculateScore_loop by discriminate.
  unfold scoreFormula. cbn [filter].
  rewrite (countMatches_occurrences Hkw), Hn.
  cbn [Nat.ltb Nat.leb map length sum fold_right].
  rewrite (countMatches_occurrences Hkw), Hn.
  change (INR 1) with 1. rewrite sqrt_1. field.
Qed.

(** Without a match of any keyword the score is 0. *)
Lemma calculateScore_no_match (content : str) (ks : list str) :
  Forall (fun k => countMatches k (toLowerCase content) = 0%nat) ks ->
  calculateScore content ks = 0.
Proof.
  intros H. destruct ks as [|k ks]; [reflexivity|].
  rewrite calculateScore_loop by discriminate. unfold scoreFormula.
  rewrite SortFacts.filter_none.
  - cbn [map sum fold_right]. unfold Rdiv. now rewrite !Rmult_0_l.
  - eapply Forall_impl; [|exact H]. intros x Hx. cbv beta in *.
    now rewrite Hx.
Qed.

End ScoreFacts.

(** ** Bounds on the logarithm of 3 *)

Module LogFacts.

Lemma exp_double_le (x y d d' : R) :
  y = x + x -> exp x <= d -> d * d <= d' -> exp y <= d'.
Proof.
  intros -> H1 H2. rewrite exp_plus. pose proof (exp_pos x). nra.
Qed.

Lemma exp_double_ge (x y e e' : R) :
  y = x + x -> 0 <= e -> e <= exp x -> e' <= e * e -> e' <= exp y.
Proof.
  intros -> H0 H1 H2. rewrite exp_plus. nra.
Qed.

Lemma exp_small_le (t d : R) :
  0 < 1 - t -> 1 <= d * (1 - t) -> exp t <= d.
Proof.
  intros Ht Hd.
  pose proof (exp_ineq1_le (- t)) as H. rewrite exp_Ropp in H.
  pose proof (exp_pos t) as Hp.
  assert (He : exp t * (1 - t) <= 1).
  { replace 1 with (exp t * / exp t) at 2 by (field; lra).
    apply Rmult_le_compat_l; lra. }
  nra.
Qed.

Ltac halve_le a b :=
  apply exp_double_le with (x := a) (d := b); [lra | | lra].

Ltac halve_ge a b :=
  apply exp_double_ge with (x := a) (e := b); [lra | lra | | lra].

(** Twenty halvings of the argument, with [1 + t <= exp t <= / (1 - t)] at
    the bottom and decimal bounds of the squares on the way up. *)
Lemma exp_below_3 : exp 1.0986 < 3.
Proof.
  apply Rle_lt_trans with (r2 := 2.999964860718386045142936024697); [|lra].
  halve_le (1.0986 / 2) 1.732040663702323717803407430772.
  halve_le (1.0986 / 4) 1.316070159110950937833359581617.
  halve_le (1.0986 / 8) 1.14720101076966931769044063299.
  halve_le (1.0986 / 16) 1.071074698968129541583646775541.
  halve_le (1.0986 / 32) 1.034927388258775158396273011251.
  halve_le (1.0986 / 64) 1.017313810118969710232341788075.
  halve_le (1.0986 / 128) 1.008619754971599646703100321492.
  halve_le (1.0986 / 256) 1.004300629777558014005039449372.
  halve_le (1.0986 / 512) 1.002148007919767315447581154949.
  halve_le (1.0986 / 1024) 1.001073427836223867596632748404.
  halve_le (1.0986 / 2048) 1.000536569964448559634041584053.
  halve_le (1.0986 / 4096) 1.000268249003460351081297598012.
  halve_le (1.0986 / 8192) 1.000134115508245399579727470759.
  halve_le (1.0986 / 16384) 1.000067055505902263885590336817.
  halve_le (1.0986 / 32768) 1.000033527190914866621837694907.
  halve_le (1.0986 / 65536) 1.000016763454950722368469704904.
  halve_le (1.0986 / 131072) 1.000008381692348977867777789029.
  halve_le (1.0986 / 262144) 1.000004190837392929906899125078.
  halve_le (1.0986 / 524288) 1.000002095416501079796950813191.
  halve_le (1.0986 / 1048576) 1.000001047707701694184380751573.
  apply exp_small_le; lra.
Qed.

Lemma exp_above_3 : 3 < exp 1.0987.
Proof.
  apply Rlt_le_trans with (r2 := 3.000261418556120098885113861542); [lra|].
  halve_ge (1.0987 / 2) 1.732126270961825721273774441236.
  halve_ge (1.0987 / 4) 1.316102682529682302172077444335.
  halve_ge (1.0987 / 8) 1.147215185799805520588706544.
  halve_ge (1.0987 / 16) 1.071081316147287446739017223242.
  halve_ge (1.0987 / 32) 1.034930585183029290657941808727.
  halve_ge (1.0987 / 64) 1.017315381375426413373473224263.
  halve_ge (1.0987 / 128) 1.008620533885477870590505896908.
  halve_ge (1.0987 / 256) 1.004301017566684471090889379799.
  halve_ge (1.0987 / 512) 1.002148201398717509613088517298.
  halve_ge (1.0987 / 1024) 1.001073524471962803298721358253.
  halve_ge (1.0987 / 2048) 1.000536618256404848159679205311.
  halve_ge (1.0987 / 4096) 1.000268273142962806508629930956.
  halve_ge (1.0987 / 8192) 1.000134127576378030732081146475.
  halve_ge (1.0987 / 16384) 1.000067061539563971021015293519.
  halve_ge (1.0987 / 32768) 1.000033530207644573166411242608.
  halve_ge (1.0987 / 65536) 1.000016764963290289520828003201.
  halve_ge (1.0987 / 131072) 1.000008382446512439993455296924.
  halve_ge (1.0987 / 262144) 1.000004191214473080617047431262.
  halve_ge (1.0987 / 524288) 1.000002095605040760065094218589.
  halve_ge (1.0987 / 1048576) 1.000001047801971435546875.
  pose proof (exp_ineq1_le (1.0987 / 1048576)). lra.
Qed.

Lemma ln3_bounds : 1.0986 < ln (1 + 2) < 1.0987.
Proof.
  replace (1 + 2) with 3 by lra.
  split; apply exp_lt_inv; rewrite exp_ln by lra.
  - apply exp_below_3.
  - apply exp_above_3.
Qed.

End LogFacts.

(** * The properties *)

Import Aux JsFacts ChunkerFacts StoreFacts SearchFacts KeywordFacts ScoreFacts.
Import SortFacts LogFacts MyDataSource Spec.

(** C3, as stated, fails: the text of one space is not empty, yet its only
    chunk is the text itself, while it has no paragraph to rejoin. *)
Lemma splitIntoChunks_blank_text_counterexample :
  lit " " <> []
  /\ (0 < 800)%Z
  /\ join blankLine (splitIntoChunks (lit " ") 800)
     <> join blankLine (paragraphsOf (lit " ")).
Proof.
  split; [discriminate|]. split; [lia|].
  vm_compute. discriminate.
Qed.

(** C3 (amended).  For every text with a code unit other than white space
    and every positive [maxSize], [splitIntoChunks] returns at least one
    chunk; the chunks joined by blank lines are the trimmed, non-empty
    paragraphs of the text joined by blank lines; and the chunks are the
    paragraphs cut into consecutive non-empty groups, one chunk per group:
    each paragraph lies wholly in one chunk, whatever its length. *)
Theorem splitIntoChunks_keeps_paragraphs (text : str) (maxSize : Z) :
  (exists c, In c text /\ isSpace c = false) ->
  (0 < maxSize)%Z ->
  splitIntoChunks text maxSize <> []
  /\ join blankLine (splitIntoChunks text maxSize)
     = join blankLine (paragraphsOf text)
  /\ exists groups,
       concat groups = paragraphsOf text
       /\ Forall (fun g => g <> []) groups
       /\ splitIntoChunks text maxSize = map (join blankLine) groups.
Proof.
  intros [c [Hin Hc]] _.
  assert (Hne : paragraphsOf text <> []).
  { intros E. apply paragraphs_nil_iff in E.
    rewrite Forall_forall in E. rewrite (E c Hin) in Hc. discriminate. }
  destruct (@splitIntoChunks_groups text maxSize Hne) as (groups & H1 & H2 & H3).
  assert (H3' : Forall (fun g => g <> []) groups).
  { eapply Forall_impl; [|exact H3]. now intros g [Hg _]. }
  split; [|split].
  - rewrite H1. intros E. apply map_eq_nil in E. subst groups.
    cbn in H2. congruence.
  - rewrite H1, <- H2. now apply join_concat.
  - exists groups. auto.
Qed.

Lemma splitIntoChunks_keeps_paragraphs_witness :
  (exists c, In c foxText /\ isSpace c = false)
  /\ (0 < 5)%Z
  /\ splitIntoChunks foxText 5 <> [].
Proof.
  assert (H1 : exists c, In c foxText /\ isSpace c = false).
  { exists "T"%char. split; [now left | reflexivity]. }
  assert (H2 : (0 < 5)%Z) by lia.
  split; [exact H1|]. split; [exact H2|].
  exact (proj1 (@splitIntoChunks_keeps_paragraphs foxText 5 H1 H2)).
Defined.

(** C6, as stated, fails: the text " a " is one paragraph far below the
    budget and the loop pushes no chunk, yet the chunk returned is the
    trimmed paragraph, not the text as it came. *)
Lemma splitIntoChunks_short_paragraph_counterexample :
  split matchBlankLines (lit " a ") = [lit " a "]
  /\ (Z.of_nat (ceilDiv4 (length (lit " a "))) < 800)%Z
  /\ fst (splitLoop (lit " a ") 800) = []
  /\ splitIntoChunks (lit " a ") 800 = [lit "a"]
  /\ splitIntoChunks (lit " a ") 800 <> [lit " a "].
Proof.
  split; [reflexivity|]. split; [vm_compute; reflexivity|].
  split; [reflexivity|]. split; [reflexivity|].
  vm_compute. discriminate.
Qed.

(** C6 (amended).  For every input text and [maxSize]: whenever nothing is
    pushed to [chunks], neither in the loop over the paragraphs nor by the
    flush behind it, the function returns a single chunk, the input text
    as it came; this is the case exactly when the text has no trimmed,
    non-empty paragraph, that is when it is empty or all white space.  A text
    with a single paragraph is returned as one chunk that holds the trimmed
    paragraph. *)
Theorem splitIntoChunks_fallback (text : str) (maxSize : Z) :
  (fst (splitLoop text maxSize) = []
   /\ truthy (trim (snd (splitLoop text maxSize))) = false ->
   splitIntoChunks text maxSize = [text])
  /\ ((fst (splitLoop text maxSize) = []
       /\ truthy (trim (snd (splitLoop text maxSize))) = false)
      <-> Forall (fun c => isSpace c = true) text)
  /\ (forall p, paragraphsOf text = [p] -> splitIntoChunks text maxSize = [p]).
Proof.
  split; [|split].
  - intros H. apply nothing_pushed_iff in H.
    now apply splitIntoChunks_no_paragraph.
  - rewrite nothing_pushed_iff. apply paragraphs_nil_iff.
  - intros p Hp.
    assert (Hne : paragraphsOf text <> []) by (rewrite Hp; discriminate).
    destruct (@splitIntoChunks_groups text maxSize Hne) as (groups & H1 & H2 & H3).
    rewrite H1. rewrite Hp in H2.
    destruct groups as [|g groups]; [discriminate|].
    inversion H3 as [|? ? [Hg _] Hgs]; subst.
    destruct g as [|x g]; [congruence|].
    cbn [concat app] in H2. injection H2 as -> H2.
    apply app_eq_nil in H2. destruct H2 as [-> H2].
    destruct groups as [|g' groups]; [reflexivity|].
    inversion Hgs as [|? ? [Hg' _] _]; subst.
    cbn [concat] in H2. apply app_eq_nil in H2. destruct H2. congruence.
Qed.

Lemma splitIntoChunks_fallback_witness :
  (fst (splitLoop (lit " ") 800) = []
   /\ truthy (trim (snd (splitLoop (lit " ") 800))) = false)
  /\ splitIntoChunks (lit " ") 800 = [lit " "].
Proof.
  assert (H : fst (splitLoop (lit " ") 800) = []
              /\ truthy (trim (snd (splitLoop (lit " ") 800))) = false).
  { split; reflexivity. }
  split; [exact H|].
  exact (proj1 (@splitIntoChunks_fallback (lit " ") 800) H).
Defined.

(** C9.  After every call of [init], in whatever state the index was, the
    chunk store is the concatenation of one group of chunks per loaded
    document, in the order of the documents; the group of a document whose
    text splits into n chunks holds exactly those n chunks, the i-th with
    [chunkIndex] i and [totalChunks] n; hence every chunk of the store has
    [0 <= chunkIndex < totalChunks]. *)
Theorem chunk_store_invariant (dir : DataDir) (self : MyDataSource.t) :
  reachable self ->
  exists groups,
    _chunks (init dir self) = concat groups
    /\ Forall2 (chunksOf (RetrievalConfig.maxChunkSize (_config self)))
               (_data (init dir self)) groups
    /\ Forall (fun c => (0 <= DocumentChunk.chunkIndex c
                         < DocumentChunk.totalChunks c)%nat)
              (_chunks (init dir self)).
Proof.
  intros Hr.
  pose proof (reachable_invariant (reach_init dir Hr)) as Hk.
  assert (Hc : _config (init dir self) = _config self)
    by (destruct dir; reflexivity).
  rewrite Hc in Hk.
  set (m := RetrievalConfig.maxChunkSize (_config self)) in *.
  exists (map (docChunks m) (_data (init dir self))).
  assert (H2 : Forall2 (chunksOf m) (_data (init dir self))
                 (map (docChunks m) (_data (init dir self)))).
  { clear Hk. induction (_data (init dir self)) as [|d ds IH];
      cbn [map]; constructor.
    - apply docChunks_chunksOf.
    - exact IH. }
  split; [|split].
  - rewrite Hk. apply chunkDocuments_concat.
  - exact H2.
  - rewrite Hk, chunkDocuments_concat. fold m.
    apply Forall_concat. clear Hk.
    induction H2 as [|d g ds gs Hd _ IH]; constructor.
    + eapply chunksOf_bound; exact Hd.
    + exact IH.
Qed.

Lemma chunk_store_invariant_witness :
  reachable freshIndex
  /\ exists groups,
       _chunks foxIndex = concat groups
       /\ Forall2 (chunksOf 800) (_data foxIndex) groups
       /\ Forall (fun c => (0 <= DocumentChunk.chunkIndex c
                            < DocumentChunk.totalChunks c)%nat)
                 (_chunks foxIndex).
Proof.
  assert (H : reachable freshIndex) by constructor.
  split; [exact H|].
  exact (@chunk_store_invariant (Some [(lit "fox.txt", Some foxText)])
           freshIndex H).
Defined.

(** C5, as stated, fails: an index that has loaded a document keeps it, and
    its chunk, when [init] is called again and the data directory is gone;
    the fallback of [search] then still returns the document. *)
Lemma init_keeps_stores_counterexample :
  _data (init None foxIndex) <> []
  /\ _chunks (init None foxIndex) <> []
  /\ search (init None foxIndex) (lit "the") <> [].
Proof.
  cbv zeta. split; [|split].
  - cbn [init]. discriminate.
  - cbn [init]. discriminate.
  - rewrite search_fallback; [|discriminate|reflexivity].
    cbn [init]. discriminate.
Qed.

(** C5 (amended).  Whenever [init] is invoked on an index that holds no
    documents and no chunks, as a newly constructed one does, and the data
    directory is missing, loading proceeds with zero documents: after the
    call the document store and the chunk store are empty, so every search
    returns the empty sequence, the keyword-less fallback too. *)
Theorem init_missing_directory_empty_index (self : MyDataSource.t) (query : str) :
  _data self = [] -> _chunks self = [] ->
  _data (init None self) = []
  /\ _chunks (init None self) = []
  /\ search (init None self) query = [].
Proof.
  intros Hd Hc. cbn [init].
  split; [exact Hd|]. split; [exact Hc|].
  now apply search_nothing_loaded.
Qed.

Lemma init_missing_directory_empty_index_witness :
  _data freshIndex = []
  /\ _chunks freshIndex = []
  /\ search (init None freshIndex) (lit "fox") = [].
Proof.
  split; [reflexivity|]. split; [reflexivity|].
  exact (proj2 (proj2 (@init_missing_directory_empty_index freshIndex
                         (lit "fox") eq_refl eq_refl))).
Defined.

(** C7.  For every state and query: when [search] returns nothing,
    [renderContext] returns the empty content and no sources; otherwise its
    content is the blocks of the results, each the content of a result
    between the line with its citation and the closing line, in rank order
    with a blank line between two blocks, which is the concatenation of the
    blocks, a blank line behind each, less the white space at its end; and
    its sources are the citations of the results in the same order,
    duplicates kept. *)
Theorem renderContext_blocks (self : MyDataSource.t) (query : str) :
  renderContext self query =
    match search self query with
    | [] => RenderedContext.mk [] []
    | results =>
        RenderedContext.mk (join blankLine (map contextBlock results))
                           (map SearchResult.citation results)
    end
  /\ join blankLine (map contextBlock (search self query))
     = trimEnd (concat (map (fun r => contextBlock r ++ blankLine)
                            (search self query))).
Proof.
  assert (Htrim : forall rs : list SearchResult.t, rs <> [] ->
            trim (concat (map (fun r => contextBlock r ++ blankLine) rs))
            = join blankLine (map contextBlock rs)).
  { intros rs Hne.
    rewrite <- (map_map contextBlock (fun b => b ++ blankLine)).
    rewrite concat_blocks by (destruct rs; [congruence | discriminate]).
    apply trim_app_spaces; [|apply blankLine_space].
    apply tight_join; [destruct rs; [congruence | discriminate]|].
    apply Forall_forall. intros b Hb. apply in_map_iff in Hb.
    destruct Hb as [r [<- _]]. apply contextBlock_tight. }
  split.
  - unfold renderContext. rewrite length_zero.
    destruct (search self query) as [|r rs] eqn:E; [reflexivity|].
    change (fun '(contextContent, sources) result =>
              (contextContent
                 ++ formatDocument (SearchResult.content result)
                                   (SearchResult.citation result)
                 ++ blankLine,
               sources ++ [SearchResult.citation result]))
      with (fun '(contextContent, sources) result =>
              (contextContent ++ contextBlock result ++ blankLine,
               sources ++ [SearchResult.citation result])).
    rewrite render_loop. cbn [app].
    now rewrite Htrim by discriminate.
  - destruct (search self query) as [|r rs]; [reflexivity|].
    rewrite <- Htrim by discriminate.
    unfold trim, trimStart.
    cbn [map concat]. unfold contextBlock at 1. reflexivity.
Qed.

(** C10.  In every state that a SharePointDataSource reaches, its document
    list is empty, since [init] appends nothing; so [search] returns the
    empty sequence and [renderContext] the empty content without sources,
    for every query. *)
Theorem sharePoint_finds_nothing (self : SharePointDataSource.t)
  (query : str) :
  SharePointDataSource.reachable self ->
  SharePointDataSource._documents self = []
  /\ SharePointDataSource.search self query = []
  /\ SharePointDataSource.renderContext self query
     = RenderedContext.mk [] [].
Proof.
  intros Hr.
  assert (Hd : SharePointDataSource._documents self = []).
  { induction Hr as [|enabled self _ IH]; [reflexivity|].
    unfold SharePointDataSource.init. destruct enabled; cbn; exact IH. }
  assert (Hs : SharePointDataSource.search self query = []).
  { unfold SharePointDataSource.search. rewrite Hd. cbn [length Nat.eqb].
    now rewrite orb_true_r. }
  split; [exact Hd|]. split; [exact Hs|].
  unfold SharePointDataSource.renderContext. now rewrite Hs.
Qed.

Lemma sharePoint_finds_nothing_witness :
  SharePointDataSource.reachable sharePointSource
  /\ SharePointDataSource.search sharePointSource (lit "fox") = []
  /\ SharePointDataSource.renderContext sharePointSource (lit "fox")
     = RenderedContext.mk [] [].
Proof.
  assert (H : SharePointDataSource.reachable sharePointSource).
  { constructor. constructor. }
  split; [exact H|].
  exact (proj2 (@sharePoint_finds_nothing _ (lit "fox") H)).
Defined.




(** The scenario from end to end: the index with the two-paragraph
    document holds one chunk, and the query "fox" finds it, with the score
    [ln (1 + 2)], which is above the default threshold. *)
Example search_fox_scenario :
  _chunks foxIndex = [DocumentChunk.mk foxText (lit "fox.txt") 0 1]
  /\ search foxIndex (lit "fox")
     = [SearchResult.mk foxText (lit "fox.txt") (ln (1 + 2))].
Proof.
  split; [reflexivity|].
  rewrite search_scored by (vm_compute; discriminate).
  change (extractKeywords (lit "fox")) with [lit "fox"].
  change (_chunks foxIndex)
    with [DocumentChunk.mk foxText (lit "fox.txt") 0 1].
  change (RetrievalConfig.minScore (_config foxIndex)) with (1 / 10).
  change (RetrievalConfig.topK (_config foxIndex)) with 3%Z.
  cbn [map DocumentChunk.content].
  assert (Hfox : wordToken (lit "fox")).
  { split; [discriminate | repeat constructor]. }
  rewrite (@calculateScore_single foxText (lit "fox") 1 Hfox eq_refl).
  change (INR 2) with (1 + 1). replace (1 + (1 + 1)) with (1 + 2) by lra.
  cbn [filter ScoredChunk.score].
  assert (E : geb (ln (1 + 2)) (1 / 10) = true).
  { apply geb_true. pose proof ln3_bounds. lra. }
  rewrite E. reflexivity.
Qed.

(** A scenario with several results: of the four chunks of the library,
    the query "fox" finds three above the threshold, the one with two
    occurrences in front, and of the two with one occurrence, equal in
    score, the limit of two results keeps the earlier. *)
Example search_library_scenario :
  search libraryIndex (lit "fox")
  = [ SearchResult.mk (lit "A fox and a fox.") (lit "b.txt") (ln (1 + 2));
      SearchResult.mk (lit "The fox runs.") (lit "a.txt") (ln (1 + 1)) ].
Proof.
  rewrite search_scored by (vm_compute; discriminate).
  change (extractKeywords (lit "fox")) with [lit "fox"].
  change (_chunks libraryIndex)
    with [ DocumentChunk.mk (lit "The fox runs.") (lit "a.txt") 0 1;
           DocumentChunk.mk (lit "A fox and a fox.") (lit "b.txt") 0 1;
           DocumentChunk.mk (lit "The cat sleeps.") (lit "c.txt") 0 1;
           DocumentChunk.mk (lit "Fox again.") (lit "d.txt") 0 1 ].
  change (RetrievalConfig.minScore (_config libraryIndex)) with (1 / 10).
  change (RetrievalConfig.topK (_config libraryIndex)) with 2%Z.
  cbn [map DocumentChunk.content].
  assert (Hfox : wordToken (lit "fox")).
  { split; [discriminate | repeat constructor]. }
  rewrite (@calculateScore_single (lit "The fox runs.") (lit "fox") 0
             Hfox eq_refl).
  rewrite (@calculateScore_single (lit "A fox and a fox.") (lit "fox") 1
             Hfox eq_refl).
  rewrite (@calculateScore_single (lit "Fox again.") (lit "fox") 0
             Hfox eq_refl).
  rewrite (@calculateScore_no_match (lit "The cat sleeps.") [lit "fox"])
    by (constructor; [reflexivity | constructor]).
  change (INR 1) with 1. change (INR 2) with (1 + 1).
  replace (1 + (1 + 1)) with (1 + 2) by lra.
  pose proof ln_lt_2 as Hln2. pose proof ln3_bounds as Hln3.
  assert (E1 : geb (ln (1 + 1)) (1 / 10) = true).
  { apply geb_true. replace (1 + 1) with 2 by lra. lra. }
  assert (E2 : geb (ln (1 + 2)) (1 / 10) = true).
  { apply geb_true. lra. }
  assert (E0 : geb 0 (1 / 10) = false).
  { unfold geb. destruct (Rge_dec 0 (1 / 10)); [lra | reflexivity]. }
  cbn [filter ScoredChunk.score]. rewrite E1, E2, E0.
  assert (Hlt : ln (1 + 1) < ln (1 + 2)).
  { apply ln_increasing; lra. }
  assert (G1 : gtb (ln (1 + 1) - ln (1 + 2)) 0 = false).
  { apply gtb_false. lra. }
  assert (G2 : gtb (ln (1 + 2) - ln (1 + 1)) 0 = true).
  { apply gtb_true. lra. }
  assert (G3 : gtb (ln (1 + 1) - ln (1 + 1)) 0 = false).
  { apply gtb_false. lra. }
  cbn [sort fold_right insertSorted ScoredChunk.score].
  rewrite G1. cbn [insertSorted ScoredChunk.score]. rewrite G2, G3.
  reflexivity.
Qed.

(** C1.  For every content and every non-empty sequence [ks] of keywords,
    each a word token as [extractKeywords] returns them, [calculateScore] is
    the sum, over the keywords of [ks] with at least one whole-word
    occurrence in the content, case aside, of [ln (1 + occurrences)], times
    the number of these keywords over the length of [ks], divided by the
    square root of the length of [ks].  In particular, for the keyword list
    of "fox" alone and a content with two whole-word occurrences of it, the
    score is [ln (1 + 2)], which lies between 1.0986 and 1.0987. *)
Theorem calculateScore_formula (content : str) (ks : list str) :
  ks <> [] -> Forall wordToken ks ->
  calculateScore content ks = specScore content ks
  /\ (ks = [lit "fox"] -> occurrences (lit "fox") content = 2%nat ->
      calculateScore content ks = ln (1 + 2)
      /\ 1.0986 < calculateScore content ks < 1.0987).
Proof.
  intros Hne Hks.
  assert (Hf : calculateScore content ks = specScore content ks).
  { rewrite calculateScore_loop by exact Hne.
    unfold specScore. apply scoreFormula_ext.
    eapply Forall_impl; [|exact Hks]. intros k Hk.
    now apply countMatches_occurrences. }
  split; [exact Hf|].
  intros -> H2.
  assert (E : calculateScore content [lit "fox"] = ln (1 + 2)).
  { assert (Hfox : wordToken (lit "fox")) by now inversion Hks.
    rewrite (@calculateScore_single content (lit "fox") 1 Hfox H2).
    change (INR 2) with (1 + 1). f_equal; lra. }
  split; [exact E|]. rewrite E. apply ln3_bounds.
Qed.

Lemma calculateScore_formula_witness :
  [lit "fox"] <> []
  /\ Forall wordToken [lit "fox"]
  /\ occurrences (lit "fox") foxText = 2%nat
  /\ calculateScore foxText [lit "fox"] = specScore foxText [lit "fox"]
  /\ calculateScore foxText [lit "fox"] = ln (1 + 2).
Proof.
  assert (H1 : [lit "fox"] <> []) by discriminate.
  assert (H2 : Forall wordToken [lit "fox"]).
  { constructor; [|constructor]. split; [discriminate|].
    repeat constructor. }
  split; [exact H1|]. split; [exact H2|]. split; [reflexivity|].
  destruct (@calculateScore_formula foxText [lit "fox"] H1 H2) as [Ha Hb].
  split; [exact Ha|]. exact (proj1 (Hb eq_refl eq_refl)).
Defined.

(** C2, as stated, fails: with [minScore] 1 and a document loaded, a query
    without keywords returns the first document with the score 0.5 of the
    fallback, below [minScore]. *)
Lemma fallback_below_minScore_counterexample :
  let self :=
    init (Some [(lit "fox.txt", Some foxText)])
         (new (lit "knowledge-base")
              (Some (RetrievalConfig.mkPartial None None (Some 1)))) in
  (0 < RetrievalConfig.topK (_config self))%Z
  /\ 0 <= RetrievalConfig.minScore (_config self)
  /\ exists r, In r (search self (lit "the"))
              /\ SearchResult.score r
                 < RetrievalConfig.minScore (_config self).
Proof.
  cbv zeta. split; [reflexivity|]. split; [cbn; lra|].
  exists (SearchResult.mk foxText (lit "fox.txt") fallbackScore).
  split.
  - rewrite search_fallback; [|discriminate|reflexivity]. now left.
  - cbn. unfold fallbackScore. lra.
Qed.

(** C2 (amended).  For every state of the index and every query, with a
    positive [topK] and a non-negative [minScore]: the sequence that
    [search] returns is sorted by non-increasing score and has at most [topK]
    elements; when the query has a keyword, the results of equal score keep
    the order of the chunks and no result has a score below [minScore]; when
    it has none, there is at most one result, and its score is the 0.5 of
    the fallback, whatever [minScore] is. *)
Theorem search_ranked (self : MyDataSource.t) (query : str) :
  (0 < RetrievalConfig.topK (_config self))%Z ->
  0 <= RetrievalConfig.minScore (_config self) ->
  nonIncreasing (search self query)
  /\ (Z.of_nat (length (search self query))
      <= RetrievalConfig.topK (_config self))%Z
  /\ (extractKeywords query <> [] ->
      tiesKeepOrder
        (map (scored (extractKeywords query)) (_chunks self))
        (search self query)
      /\ Forall (fun r => SearchResult.score r
                          >= RetrievalConfig.minScore (_config self))
                (search self query))
  /\ (extractKeywords query = [] ->
      (length (search self query) <= 1)%nat
      /\ Forall (fun r => SearchResult.score r = fallbackScore)
                (search self query)).
Proof.
  intros HtopK _.
  destruct (extractKeywords query) as [|kw kws] eqn:Ek.
  - (* no keyword: the empty result or the fallback *)
    assert (Hs : search self query = []
                 \/ exists c t, search self query
                               = [SearchResult.mk c t fallbackScore]).
    { destruct query as [|c q]; [now left|].
      rewrite search_fallback; [|discriminate|exact Ek].
      destruct (_data self) as [|first rest]; [now left | right; eauto]. }
    destruct Hs as [Hs|(c & t & Hs)]; rewrite Hs.
    + split; [constructor|]. split; [cbn; lia|].
      split; [intros H; congruence|].
      intros _. split; [cbn; lia | constructor].
    + split; [repeat constructor|]. split; [cbn; lia|].
      split; [intros H; congruence|].
      intros _. split; [cbn; lia | repeat constructor].
  - (* keywords: the scored chunks *)
    assert (Hne : extractKeywords query <> []) by (rewrite Ek; discriminate).
    rewrite (@search_scored self query Hne). rewrite Ek.
    set (minScore := RetrievalConfig.minScore (_config self)).
    set (toResult := fun sc : ScoredChunk.t =>
           SearchResult.mk (DocumentChunk.content (ScoredChunk.chunk sc))
                           (DocumentChunk.citation (ScoredChunk.chunk sc))
                           (ScoredChunk.score sc)).
    set (candidates := map (fun chunk => ScoredChunk.mk chunk _) (_chunks self)).
    set (relevant := filter _ candidates).
    change (fun a b : ScoredChunk.t => ScoredChunk.score b - ScoredChunk.score a)
      with (descending ScoredChunk.score).
    set (sorted := sort (descending ScoredChunk.score) relevant).
    destruct (slice0_firstn (RetrievalConfig.topK (_config self)) sorted)
      as [n [Hn Hk]].
    rewrite Hn.
    assert (Hmin : Forall (fun sc => ScoredChunk.score sc >= minScore)
                          (firstn n sorted)).
    { apply Forall_forall. intros sc Hsc.
      assert (Hin : In sc sorted).
      { rewrite <- (firstn_skipn n sorted). apply in_or_app. now left. }
      apply sort_In in Hin. apply filter_In in Hin.
      destruct Hin as [_ Hge]. now apply geb_true in Hge. }
    split; [|split; [|split]].
    + apply StronglySorted_map
        with (R1 := fun a b => ScoredChunk.score a >= ScoredChunk.score b).
      * intros a b H. exact H.
      * apply sortedDown_firstn, sort_sorted.
    + rewrite length_map.
      pose proof (firstn_le_length n sorted) as Hlen.
      pose proof (length_firstn n sorted) as Hl. specialize (Hk ltac:(lia)).
      lia.
    + intros _. split.
      * intros s.
        assert (Hcand : map (scored (kw :: kws)) (_chunks self)
                        = map toResult candidates).
        { subst candidates. rewrite map_map. reflexivity. }
        rewrite Hcand, !filter_map_swap.
        change (fun a => hasScore s (toResult a))
          with (hasKey ScoredChunk.score s).
        destruct (Rge_dec s minScore) as [Hge|Hlt].
        -- exists (map toResult
                     (filter (hasKey ScoredChunk.score s) (skipn n sorted))).
           rewrite <- map_app. f_equal.
           rewrite <- filter_firstn_prefix. subst sorted.
           rewrite sort_stable. subst relevant.
           symmetry. apply filter_filter_implied.
           intros sc Hsc. apply hasKey_true in Hsc. apply geb_true.
           fold minScore. lra.
        -- exists (map toResult
                     (filter (hasKey ScoredChunk.score s) candidates)).
           rewrite (@filter_none _ (hasKey ScoredChunk.score s) (firstn n sorted)).
           ++ reflexivity.
           ++ eapply Forall_impl; [|exact Hmin]. intros sc Hsc.
              cbv beta in Hsc.
              destruct (hasKey ScoredChunk.score s sc) eqn:E; [|reflexivity].
              apply hasKey_true in E. lra.
      * apply Forall_forall. intros r Hr. apply in_map_iff in Hr.
        destruct Hr as [sc [<- Hsc]]. rewrite Forall_forall in Hmin.
        exact (Hmin sc Hsc).
    + intros H. discriminate.
Qed.

Lemma search_ranked_witness :
  (0 < RetrievalConfig.topK (_config libraryIndex))%Z
  /\ 0 <= RetrievalConfig.minScore (_config libraryIndex)
  /\ extractKeywords (lit "fox") <> []
  /\ length (_chunks libraryIndex) = 4%nat
  /\ search libraryIndex (lit "fox")
     = [ SearchResult.mk (lit "A fox and a fox.") (lit "b.txt") (ln (1 + 2));
         SearchResult.mk (lit "The fox runs.") (lit "a.txt") (ln (1 + 1)) ]
  /\ nonIncreasing (search libraryIndex (lit "fox"))
  /\ (Z.of_nat (length (search libraryIndex (lit "fox")))
      <= RetrievalConfig.topK (_config libraryIndex))%Z
  /\ tiesKeepOrder
       (map (scored (extractKeywords (lit "fox"))) (_chunks libraryIndex))
       (search libraryIndex (lit "fox"))
  /\ Forall (fun r => SearchResult.score r
                      >= RetrievalConfig.minScore (_config libraryIndex))
            (search libraryIndex (lit "fox")).
Proof.
  assert (H1 : (0 < RetrievalConfig.topK (_config libraryIndex))%Z)
    by reflexivity.
  assert (H2 : 0 <= RetrievalConfig.minScore (_config libraryIndex))
    by (cbn; lra).
  assert (H3 : extractKeywords (lit "fox") <> [])
    by (vm_compute; discriminate).
  destruct (@search_ranked libraryIndex (lit "fox") H1 H2)
    as (Hsorted & Hlen & Hkw & _).
  destruct (Hkw H3) as [Hties Hmin].
  split; [exact H1|]. split; [exact H2|]. split; [exact H3|].
  split; [reflexivity|]. split; [exact search_library_scenario|].
  split; [exact Hsorted|]. split; [exact Hlen|].
  split; [exact Hties | exact Hmin].
Defined.

(** C4, as stated, fails: "this" is not among the stop words, so the query
    "what is this about" has the keyword "this"; with the document of the
    scenarios loaded, whose chunk does not hold the word, [search] returns
    nothing, not the fallback. *)
Lemma stop_word_query_counterexample :
  _data foxIndex <> []
  /\ extractKeywords (lit "what is this about") = [lit "this"]
  /\ search foxIndex (lit "what is this about") = [].
Proof.
  cbv zeta. split; [cbn [init]; discriminate|]. split; [reflexivity|].
  rewrite search_scored by (vm_compute; discriminate).
  change (extractKeywords (lit "what is this about")) with [lit "this"].
  change (_chunks foxIndex)
    with [DocumentChunk.mk foxText (lit "fox.txt") 0 1].
  change (RetrievalConfig.minScore (_config foxIndex)) with (1 / 10).
  cbn [map DocumentChunk.content].
  rewrite calculateScore_no_match by (repeat constructor).
  cbn [filter ScoredChunk.score].
  assert (E : geb 0 (1 / 10) = false).
  { unfold geb. destruct (Rge_dec 0 (1 / 10)); [lra | reflexivity]. }
  rewrite E. reflexivity.
Qed.

(** C4 (amended).  If at least one document is loaded, then for every query
    that consists of stop words only, a single space between two, such as
    "what is that about", keyword extraction yields the empty sequence and
    [search] returns exactly one result: the full content and the citation
    of the first loaded document, with the score 0.5. *)
Theorem stop_word_query_fallback (self : MyDataSource.t) (ws : list str) :
  _data self <> [] ->
  ws <> [] -> Forall (fun w => In w STOP_WORDS) ws ->
  extractKeywords (join (lit " ") ws) = []
  /\ exists first rest,
       _data self = first :: rest
       /\ search self (join (lit " ") ws)
          = [SearchResult.mk (Document.content first)
                             (Document.citation first) 0.5].
Proof.
  intros Hd Hne Hws. fold space.
  pose proof (extractKeywords_stop_words Hws) as Hk.
  split; [exact Hk|].
  destruct (_data self) as [|first rest] eqn:E; [congruence|].
  exists first, rest. split; [reflexivity|].
  rewrite search_fallback; [| |exact Hk].
  - rewrite E. unfold fallbackScore. repeat f_equal; lra.
  - apply join_tokens_nonempty; [exact Hne|].
    eapply Forall_impl; [|exact Hws]. intros w Hw.
    pose proof stop_words_tokens as Hs. rewrite Forall_forall in Hs. auto.
Qed.

Lemma stop_word_query_fallback_witness :
  let ws := [lit "what"; lit "is"; lit "that"; lit "about"] in
  _data foxIndex <> []
  /\ ws <> []
  /\ Forall (fun w => In w STOP_WORDS) ws
  /\ join (lit " ") ws = lit "what is that about"
  /\ extractKeywords (lit "what is that about") = []
  /\ search foxIndex (lit "what is that about")
     = [SearchResult.mk foxText (lit "fox.txt") 0.5].
Proof.
  cbv zeta.
  assert (H1 : _data foxIndex <> [])
    by (cbn [init]; discriminate).
  assert (H2 : [lit "what"; lit "is"; lit "that"; lit "about"] <> [])
    by discriminate.
  assert (H3 : Forall (fun w => In w STOP_WORDS)
                      [lit "what"; lit "is"; lit "that"; lit "about"]).
  { repeat (apply Forall_cons; [apply In_has; vm_compute; reflexivity|]).
    apply Forall_nil. }
  split; [exact H1|]. split; [exact H2|]. split; [exact H3|].
  split; [reflexivity|].
  destruct (@stop_word_query_fallback _ _ H1 H2 H3)
    as [Hk (first & rest & Hd & Hs)].
  split; [exact Hk|].
  cbn [init] in Hd. injection Hd as <- _. exact Hs.
Defined.

(** * Further properties *)

(** ** The budget of the chunker *)

Module BudgetFacts.
Import Aux More JsFacts ChunkerFacts MyDataSource Spec.

Ltac div4 n :=
  pose proof (Nat.div_mod_eq (n + 3) 4);
  pose proof (Nat.mod_upper_bound (n + 3) 4 ltac:(discriminate)).

Lemma tokens_positive (s : str) : s <> [] -> (1 <= tokens s)%nat.
Proof.
  intros H. unfold tokens, ceilDiv4.
  destruct s as [|c s]; [congruence|]. cbn [length].
  div4 (S (length s)). lia.
Qed.

Lemma tokens_monotone (s t : str) :
  (length s <= length t)%nat -> (tokens s <= tokens t)%nat.
Proof.
  intros H. unfold tokens, ceilDiv4.
  div4 (length s). div4 (length t). lia.
Qed.

(** Two strings joined by a blank line cost at most one token more than
    the two apart, and at least one token less. *)
Lemma tokens_joined (s t : str) :
  (tokens (s ++ blankLine ++ t) <= tokens s + tokens t + 1)%nat
  /\ (tokens s + tokens t <= tokens (s ++ blankLine ++ t) + 1)%nat.
Proof.
  unfold tokens, ceilDiv4. rewrite !length_app. cbn [length blankLine].
  div4 (length s). div4 (length t). div4 (length s + (2 + length t))%nat.
  lia.
Qed.

Lemma flushed_tail (maxSize : Z) (g : list str) (groups : list (list str)) :
  flushed maxSize (g :: groups) -> flushed maxSize groups.
Proof.
  destruct groups as [|g' groups]; [trivial|]. cbn [flushed]. tauto.
Qed.

(** A paragraph more in the last group leaves the earlier groups closed as
    they were. *)
Lemma flushed_grow (maxSize : Z) (p : str) (cg : list str) :
  cg <> [] ->
  forall groups,
    flushed maxSize (groups ++ [cg]) ->
    flushed maxSize (groups ++ [cg ++ [p]]).
Proof.
  intros Hcg. induction groups as [|g groups IH]; intros H; [exact I|].
  destruct groups as [|g' groups].
  - cbn [app flushed] in *. destruct cg as [|p0 cg]; [congruence|].
    cbn [app]. exact H.
  - change ((g :: g' :: groups) ++ [cg])
      with (g :: g' :: (groups ++ [cg])) in H.
    change ((g :: g' :: groups) ++ [cg ++ [p]])
      with (g :: g' :: (groups ++ [cg ++ [p]])).
    cbn [flushed] in H. destruct H as [H1 H2].
    specialize (IH H2).
    change (flushed maxSize (g :: (g' :: groups) ++ [cg ++ [p]])).
    change ((g' :: groups) ++ [cg ++ [p]])
      with (g' :: (groups ++ [cg ++ [p]])) in *.
    cbn [flushed]. split; [exact H1 | exact IH].
Qed.

(** A new group behind the last one, whose paragraph did not fit. *)
Lemma flushed_close (maxSize : Z) (p : str) (cg : list str) :
  (Z.of_nat (tokens (J cg) + tokens p) > maxSize)%Z ->
  forall groups,
    flushed maxSize (groups ++ [cg]) ->
    flushed maxSize ((groups ++ [cg]) ++ [[p]]).
Proof.
  intros Hp. induction groups as [|g groups IH]; intros H.
  - cbn [app flushed]. split; [exact Hp | exact I].
  - specialize (IH (@flushed_tail maxSize g (groups ++ [cg]) H)).
    destruct groups as [|g' groups].
    + cbn [app flushed] in *. tauto.
    + change (((g :: g' :: groups) ++ [cg]) ++ [[p]])
        with (g :: g' :: ((groups ++ [cg]) ++ [[p]])).
      change ((g :: g' :: groups) ++ [cg])
        with (g :: g' :: (groups ++ [cg])) in H.
      cbn [flushed] in H. destruct H as [H1 _].
      change (((g' :: groups) ++ [cg]) ++ [[p]])
        with (g' :: ((groups ++ [cg]) ++ [[p]])) in IH.
      cbn [flushed]. split; [exact H1 | exact IH].
Qed.

(** The loop of [splitIntoChunks] keeps the groups within the budget and
    closes a group only when the next paragraph does not fit. *)
Lemma loop_budget (maxSize : Z) (ps : list str) :
  forall groups cg,
    Forall tight ps -> Forall goodGroup groups -> Forall tight cg ->
    Forall (fits maxSize) groups -> (cg = [] \/ fits maxSize cg) ->
    flushed maxSize (groups ++ [cg]) -> (cg = [] -> groups = []) ->
    exists groups' cg',
      fold_left (splitStep maxSize) ps (map J groups, J cg)
      = (map J groups', J cg')
      /\ concat groups' ++ cg' = (concat groups ++ cg) ++ ps
      /\ Forall goodGroup groups' /\ Forall tight cg'
      /\ Forall (fits maxSize) groups' /\ (cg' = [] \/ fits maxSize cg')
      /\ flushed maxSize (groups' ++ [cg'])
      /\ (cg <> [] \/ ps <> [] -> cg' <> []).
Proof.
  induction ps as [|p ps IH]; intros groups cg Hps Hgs Hcg Hfit Hopen Hfl Hnil.
  - exists groups, cg. rewrite app_nil_r.
    repeat split; auto. intros [H|H]; congruence.
  - inversion Hps as [|? ? Hp Hps']; subst.
    cbn [fold_left]. unfold splitStep at 2.
    rewrite (trim_tight Hp).
    rewrite (proj2 (truthy_true p) (tight_nonempty Hp)). cbn [negb].
    fold (tokens (J cg)) (tokens p).
    destruct ((Z.of_nat (tokens (J cg) + tokens p) >? maxSize)%Z
              && truthy (J cg)) eqn:E.
    + apply andb_prop in E. destruct E as [Eb E].
      apply Z.gtb_lt in Eb.
      rewrite truthy_join in E by exact Hcg.
      assert (Hne : cg <> []) by (destruct cg; [discriminate|discriminate]).
      rewrite (trim_tight (tight_join Hne Hcg)).
      destruct (IH (groups ++ [cg]) [p])
        as (groups' & cg' & H1 & H2 & H3 & H4 & H5 & H6 & H7 & H8).
      * exact Hps'.
      * apply Forall_app. split; [exact Hgs|]. constructor; [|constructor].
        split; assumption.
      * constructor; [exact Hp | constructor].
      * apply Forall_app. split; [exact Hfit|]. constructor; [|constructor].
        destruct Hopen as [Ho|Ho]; [congruence | exact Ho].
      * right. left. reflexivity.
      * apply flushed_close; [lia | exact Hfl].
      * discriminate.
      * exists groups', cg'.
        rewrite map_app in H1. cbn [map] in H1.
        change (J [p]) with p in H1.
        split; [exact H1|]. split.
        { rewrite H2, concat_app. cbn [concat]. rewrite app_nil_r.
          now rewrite <- !app_assoc. }
        repeat split; auto. intros _. apply H8. left. discriminate.
    + rewrite <- join_snoc by exact Hcg.
      destruct (IH groups (cg ++ [p]))
        as (groups' & cg' & H1 & H2 & H3 & H4 & H5 & H6 & H7 & H8).
      * exact Hps'.
      * exact Hgs.
      * apply Forall_app. split; [exact Hcg|].
        constructor; [exact Hp|constructor].
      * exact Hfit.
      * right. destruct cg as [|p0 cg]; [left; reflexivity|].
        right. apply andb_false_iff in E.
        rewrite truthy_join in E by exact Hcg.
        destruct E as [E|E]; [|discriminate].
        assert (Ele : (Z.of_nat (tokens (J (p0 :: cg)) + tokens p)
                       <= maxSize)%Z).
        { destruct (Z.gtb_spec (Z.of_nat (tokens (J (p0 :: cg)) + tokens p))
                      maxSize); [discriminate | lia]. }
        assert (H0 : (1 <= tokens (J (p0 :: cg)))%nat).
        { apply tokens_positive, tight_nonempty, tight_join;
            [discriminate | exact Hcg]. }
        pose proof (tokens_positive (tight_nonempty Hp)) as Hp1.
        split; [lia|].
        rewrite join_app by discriminate. change (J [p]) with p.
        pose proof (tokens_joined (J (p0 :: cg)) p) as [Hj _]. lia.
      * destruct cg as [|p0 cg].
        -- rewrite (Hnil eq_refl). exact I.
        -- apply flushed_grow; [discriminate | exact Hfl].
      * intros Hc. destruct cg; discriminate.
      * exists groups', cg'. split; [exact H1|]. split.
        { rewrite H2. now rewrite <- !app_assoc. }
        repeat split; auto. intros _. apply H8. left.
        destruct cg; discriminate.
Qed.

(** The chunks of a text with a paragraph, with what the loop guarantees of
    them. *)
Lemma splitIntoChunks_budget_groups (text : str) (maxSize : Z) :
  paragraphsOf text <> [] ->
  exists groups,
    splitIntoChunks text maxSize = map J groups
    /\ concat groups = paragraphsOf text
    /\ Forall goodGroup groups
    /\ Forall (fits maxSize) groups
    /\ flushed maxSize groups.
Proof.
  intros Hne.
  destruct (@loop_budget maxSize (paragraphsOf text) [] [])
    as (groups & cg & H1 & H2 & H3 & H4 & H5 & H6 & H7 & H8);
    try (constructor; fail); auto using paragraphs_tight.
  assert (HL : splitLoop text maxSize = (map J groups, J cg)).
  { unfold splitLoop. rewrite fold_paragraphs. exact H1. }
  assert (Hcg : cg <> []) by (apply H8; now right).
  unfold splitIntoChunks. rewrite HL.
  rewrite (trim_tight (tight_join Hcg H4)).
  rewrite (proj2 (truthy_true _) (tight_nonempty (tight_join Hcg H4))).
  exists (groups ++ [cg]).
  assert (E : map J groups ++ [J cg] = map J (groups ++ [cg])).
  { now rewrite map_app. }
  rewrite E.
  destruct (map J (groups ++ [cg])) as [|c cs] eqn:Em.
  - apply map_eq_nil in Em. destruct groups; discriminate.
  - cbn [length Nat.ltb Nat.leb]. split; [reflexivity|]. split.
    + rewrite concat_app. cbn [concat]. now rewrite app_nil_r.
    + split; [|split].
      * apply Forall_app. split; [exact H3|].
        constructor; [split; assumption | constructor].
      * apply Forall_app. split; [exact H5|].
        constructor; [|constructor].
        destruct H6 as [H6|H6]; [congruence | exact H6].
      * exact H7.
Qed.

Lemma has_paragraph (text : str) :
  (exists c, In c text /\ isSpace c = false) -> paragraphsOf text <> [].
Proof.
  intros [c [Hin Hc]] E. apply paragraphs_nil_iff in E.
  rewrite Forall_forall in E. rewrite (E c Hin) in Hc. discriminate.
Qed.

Lemma singletons_concat (groups : list (list str)) :
  Forall (fun g => length g = 1%nat) groups -> map J groups = concat groups.
Proof.
  induction 1 as [|g groups Hg _ IH]; [reflexivity|].
  destruct g as [|p [|q g]]; try discriminate.
  cbn [map concat app join]. now rewrite IH.
Qed.

Lemma length_concat_groups (groups : list (list str)) :
  Forall goodGroup groups -> (length groups <= length (concat groups))%nat.
Proof.
  induction 1 as [|g groups [Hg _] _ IH]; [reflexivity|].
  cbn [concat length]. rewrite length_app.
  destruct g; [congruence|]. cbn [length]. lia.
Qed.

Lemma chunks_tight (text : str) (maxSize : Z) :
  paragraphsOf text <> [] ->
  splitIntoChunks text maxSize <> []
  /\ Forall tight (splitIntoChunks text maxSize).
Proof.
  intros Hne.
  destruct (@splitIntoChunks_groups text maxSize Hne) as (groups & H1 & H2 & H3).
  rewrite H1. split.
  - intros E. apply map_eq_nil in E. subst groups. cbn in H2. congruence.
  - apply Forall_forall. intros chunk Hc. apply in_map_iff in Hc.
    destruct Hc as [g [<- Hg]]. rewrite Forall_forall in H3.
    destruct (H3 g Hg) as [Hg1 Hg2]. now apply tight_join.
Qed.

Lemma tight_has_paragraph (text : str) : tight text -> paragraphsOf text <> [].
Proof.
  intros [Hh _]. apply has_paragraph.
  destruct text as [|c text]; [contradiction|].
  exists c. split; [now left | exact Hh].
Qed.

Lemma splitIntoChunks_nonempty (text : str) (maxSize : Z) :
  splitIntoChunks text maxSize <> [].
Proof.
  destruct (list_eq_dec (list_eq_dec ascii_dec) (paragraphsOf text) [])
    as [E|Hne].
  - rewrite (@splitIntoChunks_no_paragraph text maxSize E). discriminate.
  - apply (@chunks_tight text maxSize Hne).
Qed.

Lemma length_join_head (p : str) (l : list str) :
  (length p <= length (J (p :: l)))%nat.
Proof.
  destruct l as [|q l]; [reflexivity|].
  rewrite join_cons by discriminate. rewrite length_app. lia.
Qed.

End BudgetFacts.

Import Aux More JsFacts ChunkerFacts BudgetFacts.

(** X1.  The budget of [splitIntoChunks] is soft, by one token at most
    for a chunk of several paragraphs: every chunk of a text with a code
    unit other than white space is one of its paragraphs as a whole, or is
    estimated at no more than [maxSize + 1] tokens. *)
Theorem chunk_within_soft_budget (text : str) (maxSize : Z) (chunk : str) :
  (exists c, In c text /\ isSpace c = false) ->
  In chunk (splitIntoChunks text maxSize) ->
  In chunk (paragraphsOf text)
  \/ (Z.of_nat (ceilDiv4 (length chunk)) <= maxSize + 1)%Z.
Proof.
  intros Htext Hin.
  destruct (@splitIntoChunks_budget_groups text maxSize (@has_paragraph text Htext))
    as (groups & H1 & H2 & _ & Hfit & _).
  rewrite H1 in Hin. apply in_map_iff in Hin. destruct Hin as [g [<- Hg]].
  rewrite Forall_forall in Hfit. destruct (Hfit g Hg) as [Hone|[_ Hle]].
  - left. destruct g as [|p [|q g]]; try discriminate.
    rewrite <- H2. apply in_concat. exists [p]. split; [exact Hg | now left].
  - right. exact Hle.
Qed.

Lemma chunk_within_soft_budget_witness :
  (exists c, In c foxText /\ isSpace c = false)
  /\ In (lit "The fox runs fast.") (splitIntoChunks foxText 5)
  /\ (In (lit "The fox runs fast.") (paragraphsOf foxText)
      \/ (Z.of_nat (ceilDiv4 (length (lit "The fox runs fast."))) <= 5 + 1)%Z).
Proof.
  assert (H1 : exists c, In c foxText /\ isSpace c = false).
  { exists "T"%char. split; [now left | reflexivity]. }
  assert (H2 : In (lit "The fox runs fast.") (splitIntoChunks foxText 5)).
  { right. left. reflexivity. }
  split; [exact H1|]. split; [exact H2|].
  exact (@chunk_within_soft_budget foxText 5 _ H1 H2).
Defined.

(** X2.  [splitIntoChunks] closes a chunk only when it must: the chunks of
    a text with a code unit other than white space are its paragraphs in
    consecutive groups, and for any two chunks in a row the estimate of the
    first plus the estimate of the first paragraph of the second exceeds
    [maxSize]. *)
Theorem chunks_closed_greedily (text : str) (maxSize : Z) :
  (exists c, In c text /\ isSpace c = false) ->
  exists groups,
    splitIntoChunks text maxSize = map (join blankLine) groups
    /\ concat groups = paragraphsOf text
    /\ Forall (fun g => g <> []) groups
    /\ flushed maxSize groups.
Proof.
  intros Htext.
  destruct (@splitIntoChunks_budget_groups text maxSize (@has_paragraph text Htext))
    as (groups & H1 & H2 & H3 & _ & H5).
  exists groups. repeat split; auto.
  eapply Forall_impl; [|exact H3]. now intros g [Hg _].
Qed.

Lemma chunks_closed_greedily_witness :
  (exists c, In c foxText /\ isSpace c = false)
  /\ exists groups,
       splitIntoChunks foxText 5 = map (join blankLine) groups
       /\ concat groups = paragraphsOf foxText
       /\ Forall (fun g => g <> []) groups
       /\ flushed 5 groups.
Proof.
  assert (H1 : exists c, In c foxText /\ isSpace c = false).
  { exists "T"%char. split; [now left | reflexivity]. }
  split; [exact H1|].
  exact (@chunks_closed_greedily foxText 5 H1).
Defined.

(** X3.  With a budget of one token or less no two paragraphs share a
    chunk: the chunks of a text with a code unit other than white space are
    exactly its trimmed, non-empty paragraphs. *)
Theorem tiny_budget_chunk_per_paragraph (text : str) (maxSize : Z) :
  (exists c, In c text /\ isSpace c = false) ->
  (maxSize <= 1)%Z ->
  splitIntoChunks text maxSize = paragraphsOf text.
Proof.
  intros Htext Hm.
  destruct (@splitIntoChunks_budget_groups text maxSize (@has_paragraph text Htext))
    as (groups & H1 & H2 & _ & Hfit & _).
  rewrite H1, <- H2. apply singletons_concat.
  eapply Forall_impl; [|exact Hfit]. intros g [Hg|[Hg _]]; [exact Hg | lia].
Qed.

Lemma tiny_budget_chunk_per_paragraph_witness :
  (exists c, In c foxText /\ isSpace c = false)
  /\ (0 <= 1)%Z
  /\ splitIntoChunks foxText 0
     = [lit "The quick brown fox jumps."; lit "The fox runs fast."].
Proof.
  assert (H1 : exists c, In c foxText /\ isSpace c = false).
  { exists "T"%char. split; [now left | reflexivity]. }
  assert (H2 : (0 <= 1)%Z) by lia.
  split; [exact H1|]. split; [exact H2|].
  exact (@tiny_budget_chunk_per_paragraph foxText 0 H1 H2).
Defined.

(** X4.  A text whose paragraphs, joined by blank lines, are estimated
    below [maxSize] is returned as a single chunk: all its paragraphs joined
    by blank lines. *)
Theorem large_budget_single_chunk (text : str) (maxSize : Z) :
  (exists c, In c text /\ isSpace c = false) ->
  (Z.of_nat (ceilDiv4 (length (join blankLine (paragraphsOf text))))
   < maxSize)%Z ->
  splitIntoChunks text maxSize = [join blankLine (paragraphsOf text)].
Proof.
  intros Htext Hm.
  destruct (@splitIntoChunks_budget_groups text maxSize (@has_paragraph text Htext))
    as (groups & H1 & H2 & H3 & _ & H5).
  rewrite H1, <- H2 in *.
  destruct groups as [|g1 [|g2 rest]].
  - exfalso. apply (@has_paragraph text Htext). now rewrite <- H2.
  - cbn [map concat]. now rewrite app_nil_r.
  - exfalso. cbn [flushed] in H5. destruct H5 as [H5 _].
    inversion H3 as [|? ? [Hg1 _] H3']; subst.
    inversion H3' as [|? ? [Hg2 _] _]; subst.
    destruct g2 as [|p g2]; [congruence|].
    change (concat (g1 :: (p :: g2) :: rest))
      with (g1 ++ (p :: (g2 ++ concat rest))) in Hm.
    rewrite join_app in Hm by (congruence || discriminate).
    pose proof (tokens_joined (J g1) p) as [_ Hj].
    assert (Hle : (tokens (J g1 ++ blankLine ++ p)
                   <= tokens (J g1 ++ blankLine
                                   ++ J (p :: g2 ++ concat rest)))%nat).
    { apply tokens_monotone. rewrite !length_app.
      pose proof (length_join_head p (g2 ++ concat rest)). lia. }
    unfold tokens in *. lia.
Qed.

Lemma large_budget_single_chunk_witness :
  (exists c, In c foxText /\ isSpace c = false)
  /\ (Z.of_nat (ceilDiv4 (length (join blankLine (paragraphsOf foxText))))
      < 800)%Z
  /\ splitIntoChunks foxText 800 = [foxText].
Proof.
  assert (H1 : exists c, In c foxText /\ isSpace c = false).
  { exists "T"%char. split; [now left | reflexivity]. }
  assert (H2 : (Z.of_nat (ceilDiv4 (length (join blankLine
                                               (paragraphsOf foxText))))
                < 800)%Z) by (vm_compute; reflexivity).
  split; [exact H1|]. split; [exact H2|].
  exact (@large_budget_single_chunk foxText 800 H1 H2).
Defined.

(** X5.  Every chunk of a text with a code unit other than white space is
    non-empty and has no white space at either end, and there are no more
    chunks than paragraphs. *)
Theorem chunks_trimmed_and_counted (text : str) (maxSize : Z) :
  (exists c, In c text /\ isSpace c = false) ->
  Forall (fun chunk => chunk <> [] /\ trim chunk = chunk)
         (splitIntoChunks text maxSize)
  /\ (1 <= length (splitIntoChunks text maxSize)
         <= length (paragraphsOf text))%nat.
Proof.
  intros Htext.
  destruct (@splitIntoChunks_budget_groups text maxSize (@has_paragraph text Htext))
    as (groups & H1 & H2 & H3 & _ & _).
  rewrite H1. split.
  - apply Forall_forall. intros chunk Hc. apply in_map_iff in Hc.
    destruct Hc as [g [<- Hg]]. rewrite Forall_forall in H3.
    destruct (H3 g Hg) as [Hne Ht].
    pose proof (tight_join Hne Ht) as T.
    split; [now apply tight_nonempty | now apply trim_tight].
  - rewrite length_map, <- H2. split.
    + destruct groups; [|cbn; lia].
      exfalso. apply (@has_paragraph text Htext). now rewrite <- H2.
    + now apply length_concat_groups.
Qed.

Lemma chunks_trimmed_and_counted_witness :
  (exists c, In c (lit "  a  ") /\ isSpace c = false)
  /\ Forall (fun chunk => chunk <> [] /\ trim chunk = chunk)
            (splitIntoChunks (lit "  a  ") 800).
Proof.
  assert (H1 : exists c, In c (lit "  a  ") /\ isSpace c = false).
  { exists "a"%char. split; [right; right; now left | reflexivity]. }
  split; [exact H1|].
  exact (proj1 (@chunks_trimmed_and_counted (lit "  a  ") 800 H1)).
Defined.

(** ** The stores *)

Module LoadFacts.
Import Aux More JsFacts ChunkerFacts BudgetFacts StoreFacts MyDataSource Spec.

Lemma init_config (dir : DataDir) (self : t) :
  _config (init dir self) = _config self /\ name (init dir self) = name self.
Proof. destruct dir; split; reflexivity. Qed.

(** What [init] loads from a directory that exists. *)
Lemma loaded_iff (files : list (str * option str)) (self : t)
  (d : Document.t) :
  In d (_data (init (Some files) self))
  <-> exists file raw,
        In (file, Some raw) files /\ trim raw <> []
        /\ d = Document.mk (trim raw) file.
Proof.
  cbn [init _data]. rewrite filter_In, in_map_iff. split.
  - intros [[[file read] [Hd Hin]] Hlen]. subst d.
    destruct read as [raw|]; cbn in Hlen; [|discriminate].
    exists file, raw. split; [exact Hin|]. split; [|reflexivity].
    intros E. rewrite E in Hlen. discriminate.
  - intros (file & raw & Hin & Hne & ->). split.
    + exists (file, Some raw). split; [reflexivity | exact Hin].
    + cbn. destruct (trim raw); [congruence | reflexivity].
Qed.

Lemma loaded_tight (files : list (str * option str)) (self : t) :
  Forall (fun d => tight (Document.content d))
         (_data (init (Some files) self)).
Proof.
  apply Forall_forall. intros d Hd. apply loaded_iff in Hd.
  destruct Hd as (file & raw & _ & Hne & ->). cbn.
  destruct (trim_nil_or_tight raw); [congruence | assumption].
Qed.

(** In every state of an index the documents are trimmed and not empty. *)
Lemma reachable_data_tight (self : t) :
  reachable self -> Forall (fun d => tight (Document.content d)) (_data self).
Proof.
  induction 1 as [name config|dir self _ IH].
  - constructor.
  - destruct dir as [files|]; [apply loaded_tight | exact IH].
Qed.

Lemma docChunks_facts (maxSize : Z) (doc : Document.t) :
  tight (Document.content doc) ->
  docChunks maxSize doc <> []
  /\ Forall (fun c => DocumentChunk.citation c = Document.citation doc
                      /\ tight (DocumentChunk.content c))
            (docChunks maxSize doc).
Proof.
  intros Ht. unfold docChunks.
  destruct (@chunks_tight _ maxSize (@tight_has_paragraph _ Ht)) as [Hne Hall].
  revert Hne Hall.
  generalize (splitIntoChunks (Document.content doc) maxSize) as texts.
  intros texts Hne Hall. split.
  - destruct texts; [congruence | discriminate].
  - clear Hne. unfold indexed. generalize (length texts). generalize 0%nat.
    induction Hall as [|x l Hx _ IH]; intros i n; [constructor|].
    cbn [indexedFrom map]. constructor; [split; [reflexivity | exact Hx]|].
    apply IH.
Qed.

Lemma length_concat_map (A B : Type) (f : A -> list B) (l : list A) :
  Forall (fun x => f x <> []) l ->
  (length l <= length (concat (map f l)))%nat.
Proof.
  induction 1 as [|x l Hx _ IH]; [reflexivity|].
  cbn [map concat length]. rewrite length_app.
  destruct (f x); [congruence|]. cbn [length]. lia.
Qed.

End LoadFacts.

Import StoreFacts LoadFacts.

(** X6.  When the data directory exists, [init] loads exactly the files
    that could be read and whose content is not blank: a document is in the
    store if and only if it is the trimmed content of such a file under the
    name of the file.  Every loaded document is non-empty and trimmed, and
    there are no more documents than directory entries. *)
Theorem init_loads_readable_files (files : list (str * option str))
  (self : MyDataSource.t) :
  (forall d,
     In d (_data (init (Some files) self))
     <-> exists file raw,
           In (file, Some raw) files /\ trim raw <> []
           /\ d = Document.mk (trim raw) file)
  /\ Forall (fun d => Document.content d <> []
                      /\ trim (Document.content d) = Document.content d)
            (_data (init (Some files) self))
  /\ (length (_data (init (Some files) self)) <= length files)%nat.
Proof.
  split; [|split].
  - intros d. apply loaded_iff.
  - eapply Forall_impl; [|apply loaded_tight]. intros d T. cbv beta in T.
    split; [now apply tight_nonempty | now apply trim_tight].
  - cbn [init _data].
    etransitivity; [apply filter_length_le|]. now rewrite length_map.
Qed.

(** X7.  A call of [init] that finds the directory replaces whatever
    earlier calls loaded; a call that does not find it changes nothing; and
    calling [init] twice with the same directory is calling it once. *)
Theorem init_overwrites (dir : DataDir) (files : list (str * option str))
  (self : MyDataSource.t) :
  init (Some files) (init dir self) = init (Some files) self
  /\ init None (init dir self) = init dir self
  /\ init dir (init dir self) = init dir self.
Proof.
  assert (H : forall d, init (Some files) (init d self)
                        = init (Some files) self).
  { intros d. destruct (init_config d self) as [Hc Hn].
    cbn [init]. now rewrite Hc, Hn. }
  split; [apply H|]. split; [reflexivity|].
  destruct dir as [fs|]; [|reflexivity].
  assert (H' : forall d, init (Some fs) (init d self) = init (Some fs) self).
  { intros d. destruct (init_config d self) as [Hc Hn].
    cbn [init]. now rewrite Hc, Hn. }
  apply H'.
Qed.

(** X8.  In every state that an index reaches, every chunk of the store
    carries the citation of a loaded document and has a non-empty, trimmed
    content; every loaded document is non-empty and trimmed; and there are
    at least as many chunks as documents. *)
Theorem reachable_store_consistent (self : MyDataSource.t) :
  reachable self ->
  Forall (fun c =>
            (exists d, In d (_data self)
                       /\ DocumentChunk.citation c = Document.citation d)
            /\ DocumentChunk.content c <> []
            /\ trim (DocumentChunk.content c) = DocumentChunk.content c)
         (_chunks self)
  /\ Forall (fun d => Document.content d <> []
                      /\ trim (Document.content d) = Document.content d)
            (_data self)
  /\ (length (_data self) <= length (_chunks self))%nat.
Proof.
  intros Hr.
  pose proof (reachable_invariant Hr) as Hk.
  pose proof (reachable_data_tight Hr) as Hd.
  rewrite chunkDocuments_concat in Hk.
  set (m := RetrievalConfig.maxChunkSize (_config self)) in *.
  split; [|split].
  - rewrite Hk. apply Forall_forall. intros c Hc.
    apply in_concat in Hc. destruct Hc as [group [Hg Hc]].
    apply in_map_iff in Hg. destruct Hg as [d [<- Hin]].
    rewrite Forall_forall in Hd.
    destruct (@docChunks_facts m d (Hd d Hin)) as [_ Hall].
    rewrite Forall_forall in Hall. destruct (Hall c Hc) as [Hcit Ht].
    split; [exists d; now split|].
    split; [now apply tight_nonempty | now apply trim_tight].
  - eapply Forall_impl; [|exact Hd]. intros d T. cbv beta in T.
    split; [now apply tight_nonempty | now apply trim_tight].
  - rewrite Hk. apply length_concat_map.
    eapply Forall_impl; [|exact Hd]. intros d T.
    apply (@docChunks_facts m d T).
Qed.

Lemma reachable_store_consistent_witness :
  reachable foxIndex
  /\ (length (_data foxIndex) <= length (_chunks foxIndex))%nat.
Proof.
  assert (H : reachable foxIndex) by (constructor; constructor).
  split; [exact H|].
  exact (proj2 (proj2 (@reachable_store_consistent foxIndex H))).
Defined.

(** X9.  [chunkDocuments] handles the documents one by one: the chunks of
    two lists of documents, one behind the other, are the chunks of the
    first followed by the chunks of the second; and every document, whatever
    its content, gives at least one chunk. *)
Theorem chunkDocuments_per_document (config : RetrievalConfig.t)
  (docs docs' : list Document.t) :
  chunkDocuments config (docs ++ docs')
  = chunkDocuments config docs ++ chunkDocuments config docs'
  /\ (length docs <= length (chunkDocuments config docs))%nat.
Proof.
  rewrite !chunkDocuments_concat. split.
  - now rewrite map_app, concat_app.
  - apply length_concat_map. apply Forall_forall. intros d _.
    unfold docChunks. intros E. apply map_eq_nil in E.
    pose proof (@splitIntoChunks_nonempty (Document.content d)
                  (RetrievalConfig.maxChunkSize config)) as Hne.
    unfold indexed in E.
    destruct (splitIntoChunks (Document.content d)
                (RetrievalConfig.maxChunkSize config));
      [congruence | discriminate].
Qed.

(** ** The words of a query *)

Module WordsFacts.
Import Aux More JsFacts KeywordFacts SortFacts MyDataSource Spec.











Lemma lowWord_isLowerWord (c : ascii) : lowWord c -> isLowerWord c = true.
Proof.
  intros [H1 H2]. revert H1 H2. each_ascii c; cbv; congruence.
Qed.




End WordsFacts.

Import KeywordFacts WordsFacts SearchFacts.

(** X10.  Every keyword that [extractKeywords] returns has more than two
    code units, each a lower-case letter, a digit or the underscore, and is
    not one of the stop words. *)
Theorem keywords_well_formed (query : str) :
  Forall (fun k => (2 < length k)%nat
                   /\ Forall (fun c => isLowerWord c = true) k
                   /\ ~ In k STOP_WORDS)
         (extractKeywords query).
Proof.
  pose proof (extractKeywords_tokens query) as Ht.
  apply Forall_forall. intros k Hk.
  rewrite Forall_forall in Ht. destruct (Ht k Hk) as [_ Hlow].
  unfold extractKeywords in Hk. apply filter_In in Hk.
  destruct Hk as [_ Hk]. apply andb_prop in Hk. destruct Hk as [Hlen Hstop].
  split; [now apply Nat.ltb_lt|]. split.
  - eapply Forall_impl; [|exact Hlow]. apply lowWord_isLowerWord.
  - intros Hin. rewrite (has_In _ _ Hin) in Hstop. discriminate.
Qed.





(** ** The sign and the symmetries of the score *)

Module ScoreMoreFacts.
Import Aux More JsFacts KeywordFacts ScoreFacts SortFacts MyDataSource Spec.
Import Regex.

Lemma ln_count_positive (n : nat) : (0 < n)%nat -> 0 < ln (1 + INR n).
Proof.
  intros H. rewrite <- ln_1. apply ln_increasing; [lra|].
  apply lt_0_INR in H. lra.
Qed.

Section Counts.
Variable count : str -> nat.



Lemma sum_cons (x : R) (l : list R) : sum (x :: l) = x + sum l.
Proof. reflexivity. Qed.

Lemma gains_positive (ks : list str) :
  Forall (fun x => 0 < x) (gains count ks).
Proof.
  unfold gains, matchedOf. apply Forall_forall. intros x Hx.
  apply in_map_iff in Hx. destruct Hx as [k [<- Hk]].
  apply filter_In in Hk. destruct Hk as [_ Hk].
  apply ln_count_positive. now apply Nat.ltb_lt.
Qed.

Lemma sum_nonnegative (l : list R) : Forall (fun x => 0 < x) l -> 0 <= sum l.
Proof.
  induction 1 as [|x l Hx _ IH]; [cbn; lra|].
  rewrite sum_cons. lra.
Qed.

Lemma sum_positive (l : list R) :
  l <> [] -> Forall (fun x => 0 < x) l -> 0 < sum l.
Proof.
  intros Hne H. destruct H as [|x l Hx Hl]; [congruence|].
  rewrite sum_cons. pose proof (sum_nonnegative Hl). lra.
Qed.

Lemma scoreFormula_parts (ks : list str) :
  scoreFormula count ks
  = sum (gains count ks)
    * (INR (length (matchedOf count ks)) / INR (length ks))
    / sqrt (INR (length ks)).
Proof. reflexivity. Qed.

Lemma scoreFormula_sign (ks : list str) :
  ks <> [] ->
  0 <= scoreFormula count ks
  /\ (0 < scoreFormula count ks
      <-> exists k, In k ks /\ (0 < count k)%nat).
Proof.
  intros Hne. rewrite scoreFormula_parts.
  assert (Hlen : 0 < INR (length ks)).
  { apply lt_0_INR. destruct ks; [congruence | cbn; lia]. }
  assert (Hsqrt : 0 < sqrt (INR (length ks))) by now apply sqrt_lt_R0.
  pose proof (gains_positive ks) as Hg.
  unfold gains in *.
  destruct (matchedOf count ks) as [|k0 m] eqn:Em.
  - cbn [map sum fold_right length].
    change (INR 0) with 0. unfold Rdiv. rewrite !Rmult_0_l. split; [lra|].
    split; [lra|]. intros [k [Hk Hc]]. exfalso.
    assert (Hin : In k (matchedOf count ks)).
    { apply filter_In. split; [exact Hk | now apply Nat.ltb_lt]. }
    rewrite Em in Hin. exact Hin.
  - assert (Hs : 0 < sum (map (fun k => ln (1 + INR (count k))) (k0 :: m))).
    { apply sum_positive; [discriminate | exact Hg]. }
    assert (Hm : 0 < INR (length (k0 :: m))).
    { apply lt_0_INR. cbn. lia. }
    assert (Hpos : 0 < sum (map (fun k => ln (1 + INR (count k))) (k0 :: m))
                       * (INR (length (k0 :: m)) / INR (length ks))
                       / sqrt (INR (length ks))).
    { apply Rdiv_lt_0_compat; [|exact Hsqrt].
      apply Rmult_lt_0_compat; [exact Hs|].
      now apply Rdiv_lt_0_compat. }
    split; [lra|]. split; [|intros _; exact Hpos].
    intros _. exists k0.
    assert (Hin : In k0 (matchedOf count ks)) by (rewrite Em; now left).
    apply filter_In in Hin. destruct Hin as [Hin Hc].
    split; [exact Hin | now apply Nat.ltb_lt].
Qed.

End Counts.

Lemma calculateScore_formula_counts (content : str) (ks : list str) :
  calculateScore content ks
  = match ks with
    | [] => 0
    | _ => scoreFormula (fun k => countMatches k (toLowerCase content)) ks
    end.
Proof.
  destruct ks as [|k ks]; [reflexivity|].
  apply calculateScore_loop. discriminate.
Qed.





End ScoreMoreFacts.

Import ScoreFacts ScoreMoreFacts.

(** X13.  A score is never negative.  For keywords that are word tokens, as
    [extractKeywords] returns them, it is positive exactly when one of the
    keywords occurs in the content as a whole word, case aside. *)
Theorem calculateScore_sign (content : str) (ks : list str) :
  0 <= calculateScore content ks
  /\ (Forall wordToken ks ->
      (0 < calculateScore content ks
       <-> exists k, In k ks /\ (0 < occurrences k content)%nat)).
Proof.
  rewrite calculateScore_formula_counts.
  destruct ks as [|k0 ks].
  - split; [lra|]. intros _. split; [lra | intros [k [[] _]]].
  - destruct (@scoreFormula_sign
                (fun k => Regex.countMatches k (toLowerCase content))
                (k0 :: ks) ltac:(discriminate)) as [H0 Hpos].
    split; [exact H0|]. intros Hks. rewrite Hpos.
    rewrite Forall_forall in Hks.
    split; intros [k [Hin Hc]]; exists k; (split; [exact Hin|]).
    + now rewrite <- (countMatches_occurrences (Hks k Hin)).
    + now rewrite (countMatches_occurrences (Hks k Hin)).
Qed.

Lemma calculateScore_sign_witness :
  Forall wordToken [lit "fox"; lit "cat"]
  /\ 0 < calculateScore foxText [lit "fox"; lit "cat"].
Proof.
  assert (H : Forall wordToken [lit "fox"; lit "cat"]).
  { repeat (constructor; [split; [discriminate | repeat constructor]|]).
    constructor. }
  split; [exact H|].
  apply (proj2 (@calculateScore_sign foxText [lit "fox"; lit "cat"]) H).
  exists (lit "fox"). split; [now left | vm_compute; lia].
Defined.



(** ** The selection of the results *)

Module SelectFacts.
Import Aux More JsFacts KeywordFacts ScoreFacts ScoreMoreFacts SortFacts.
Import SearchFacts MyDataSource Spec.

Section Sorting.
Variable A : Type.
Variable cmp : A -> A -> R.

Lemma insertSorted_permutation (a : A) (l : list A) :
  Permutation (insertSorted cmp a l) (a :: l).
Proof.
  induction l as [|b l IH]; cbn [insertSorted]; [reflexivity|].
  destruct (gtb (cmp a b) 0); [|reflexivity].
  rewrite IH. apply perm_swap.
Qed.

Lemma sort_permutation (l : list A) : Permutation (sort cmp l) l.
Proof.
  induction l as [|a l IH]; cbn [sort fold_right]; [reflexivity|].
  fold (sort cmp l). rewrite insertSorted_permutation. now constructor.
Qed.
End Sorting.

Lemma sortedDown_app (A : Type) (key : A -> R) (l1 l2 : list A) :
  sortedDown key (l1 ++ l2) ->
  forall a b, In a l1 -> In b l2 -> key a >= key b.
Proof.
  induction l1 as [|x l1 IH]; intros H a b Ha Hb; [destruct Ha|].
  cbn [app] in H. inversion H as [|? ? Hl Hx]; subst.
  destruct Ha as [->|Ha]; [|now apply IH].
  rewrite Forall_forall in Hx. apply Hx. apply in_or_app. now right.
Qed.

(** [slice(0, k)] with [k] not negative: the first [k] elements, or all. *)
Lemma slice0_cut (A : Type) (k : Z) (l : list A) :
  (0 <= k)%Z ->
  exists n, slice0 k l = firstn n l
            /\ (skipn n l <> [] -> Z.of_nat (length (firstn n l)) = k).
Proof.
  intros Hk. unfold slice0.
  destruct (k <? 0)%Z eqn:E; [apply Z.ltb_lt in E; lia|].
  exists (Z.to_nat (Z.min k (Z.of_nat (length l)))). split; [reflexivity|].
  intros Hs. rewrite length_firstn.
  assert (Hlt : (Z.to_nat (Z.min k (Z.of_nat (length l))) < length l)%nat).
  { destruct (Nat.lt_ge_cases
                (Z.to_nat (Z.min k (Z.of_nat (length l)))) (length l))
      as [H|H]; [exact H|].
    rewrite skipn_all2 in Hs by exact H. congruence. }
  lia.
Qed.

(** The scored path of [search], on results: the relevant candidates,
    sorted, cut. *)
Lemma search_selection (self : t) (query : str) :
  extractKeywords query <> [] ->
  (0 <= RetrievalConfig.topK (_config self))%Z ->
  exists sorted n,
    search self query = firstn n sorted
    /\ Permutation sorted
         (filter (fun r => geb (SearchResult.score r)
                               (RetrievalConfig.minScore (_config self)))
                 (map (scored (extractKeywords query)) (_chunks self)))
    /\ nonIncreasing sorted
    /\ (skipn n sorted <> []
        -> Z.of_nat (length (firstn n sorted))
           = RetrievalConfig.topK (_config self)).
Proof.
  intros Hne Hk. rewrite (@search_scored self query Hne).
  set (toResult := fun sc : ScoredChunk.t =>
         SearchResult.mk (DocumentChunk.content (ScoredChunk.chunk sc))
                         (DocumentChunk.citation (ScoredChunk.chunk sc))
                         (ScoredChunk.score sc)).
  set (candidates := map (fun chunk => ScoredChunk.mk chunk _) (_chunks self)).
  set (relevant := filter _ candidates).
  change (fun a b : ScoredChunk.t => ScoredChunk.score b - ScoredChunk.score a)
    with (descending ScoredChunk.score).
  set (sorted := sort (descending ScoredChunk.score) relevant).
  destruct (@slice0_cut _ (RetrievalConfig.topK (_config self)) sorted Hk)
    as [n [Hn Hcut]].
  exists (map toResult sorted), n. rewrite Hn.
  split; [now rewrite firstn_map|]. split; [|split].
  - assert (Hcand : map (scored (extractKeywords query)) (_chunks self)
                    = map toResult candidates).
    { subst candidates. rewrite map_map. reflexivity. }
    rewrite Hcand, filter_map_swap. apply Permutation_map.
    apply sort_permutation.
  - apply StronglySorted_map
      with (R1 := fun a b => ScoredChunk.score a >= ScoredChunk.score b).
    + intros a b H. exact H.
    + apply sort_sorted.
  - rewrite skipn_map, firstn_map, length_map. intros H. apply Hcut.
    intros E. apply H. now rewrite E.
Qed.

Lemma nonIncreasing_app (l1 l2 : list SearchResult.t) :
  nonIncreasing (l1 ++ l2) ->
  forall a b, In a l1 -> In b l2 ->
    SearchResult.score a >= SearchResult.score b.
Proof. apply (@sortedDown_app _ SearchResult.score). Qed.

(** A positive score shows a keyword in the content. *)
Lemma positive_score_occurrence (content : str) (ks : list str) :
  Forall wordToken ks -> 0 < calculateScore content ks ->
  exists k, In k ks /\ (0 < occurrences k content)%nat.
Proof.
  intros Hks Hpos. rewrite calculateScore_formula_counts in Hpos.
  destruct ks as [|k0 ks]; [lra|].
  apply scoreFormula_sign in Hpos; [|discriminate].
  destruct Hpos as [k [Hin Hc]]. exists k. split; [exact Hin|].
  rewrite Forall_forall in Hks.
  now rewrite <- (countMatches_occurrences (Hks k Hin)).
Qed.

Lemma In_firstn (A : Type) (n : nat) (l : list A) (x : A) :
  In x (firstn n l) -> In x l.
Proof.
  intros H. rewrite <- (firstn_skipn n l). apply in_or_app. now left.
Qed.

(** A result of the scored path is a chunk that reaches [minScore]. *)
Lemma search_member (self : t) (query : str) (r : SearchResult.t) :
  extractKeywords query <> [] -> In r (search self query) ->
  exists chunk,
    In chunk (_chunks self)
    /\ r = scored (extractKeywords query) chunk
    /\ SearchResult.score r >= RetrievalConfig.minScore (_config self).
Proof.
  intros Hne Hr. rewrite (@search_scored self query Hne) in Hr.
  apply in_map_iff in Hr. destruct Hr as [sc [<- Hsc]].
  unfold slice0 in Hsc. apply In_firstn in Hsc.
  change (fun a b : ScoredChunk.t => ScoredChunk.score b - ScoredChunk.score a)
    with (descending ScoredChunk.score) in Hsc.
  apply sort_In in Hsc. apply filter_In in Hsc.
  destruct Hsc as [Hsc Hge]. apply geb_true in Hge.
  apply in_map_iff in Hsc. destruct Hsc as [chunk [<- Hin]].
  exists chunk. split; [exact Hin|]. split; [reflexivity | exact Hge].
Qed.


End SelectFacts.

Import SelectFacts.

(** X16.  When the query has a keyword, every result of [search] is a chunk
    of the store: it has the content and the citation of that chunk, and
    its score is the score of that content against the keywords of the
    query. *)
Theorem search_results_are_chunks (self : MyDataSource.t) (query : str) :
  extractKeywords query <> [] ->
  Forall (fun r =>
            exists chunk,
              In chunk (_chunks self)
              /\ SearchResult.content r = DocumentChunk.content chunk
              /\ SearchResult.citation r = DocumentChunk.citation chunk
              /\ SearchResult.score r
                 = calculateScore (DocumentChunk.content chunk)
                                  (extractKeywords query))
         (search self query).
Proof.
  intros Hne. apply Forall_forall. intros r Hr.
  destruct (@search_member self query r Hne Hr) as (chunk & Hin & -> & _).
  exists chunk. cbn. auto.
Qed.

Lemma search_results_are_chunks_witness :
  extractKeywords (lit "fox") <> []
  /\ Forall (fun r => exists chunk,
                In chunk (_chunks foxIndex)
                /\ SearchResult.content r = DocumentChunk.content chunk
                /\ SearchResult.citation r = DocumentChunk.citation chunk
                /\ SearchResult.score r
                   = calculateScore (DocumentChunk.content chunk)
                                    (extractKeywords (lit "fox")))
            (search foxIndex (lit "fox")).
Proof.
  assert (H : extractKeywords (lit "fox") <> []) by (vm_compute; discriminate).
  split; [exact H|].
  exact (@search_results_are_chunks foxIndex (lit "fox") H).
Defined.

(** X17.  When the query has a keyword and [topK] is not negative, [search]
    returns the best of the chunks that reach [minScore]: these chunks are
    the results together with a rest, no result scores below a chunk of the
    rest, and when the rest is not empty the results are [topK] in
    number. *)
Theorem search_returns_the_best (self : MyDataSource.t) (query : str) :
  extractKeywords query <> [] ->
  (0 <= RetrievalConfig.topK (_config self))%Z ->
  exists rest,
    Permutation
      (filter (fun r => geb (SearchResult.score r)
                            (RetrievalConfig.minScore (_config self)))
              (map (scored (extractKeywords query)) (_chunks self)))
      (search self query ++ rest)
    /\ (forall r x, In r (search self query) -> In x rest ->
          SearchResult.score r >= SearchResult.score x)
    /\ (rest <> [] ->
        Z.of_nat (length (search self query))
        = RetrievalConfig.topK (_config self)).
Proof.
  intros Hne Hk.
  destruct (@search_selection self query Hne Hk)
    as (sorted & n & Hs & Hperm & Hsorted & Hcut).
  exists (skipn n sorted). rewrite Hs. split; [|split].
  - rewrite firstn_skipn. now symmetry.
  - apply nonIncreasing_app. now rewrite firstn_skipn.
  - exact Hcut.
Qed.

Lemma search_returns_the_best_witness :
  extractKeywords (lit "fox") <> []
  /\ (0 <= RetrievalConfig.topK (_config foxIndex))%Z
  /\ exists rest,
       Permutation
         (filter (fun r => geb (SearchResult.score r)
                               (RetrievalConfig.minScore (_config foxIndex)))
                 (map (scored (extractKeywords (lit "fox")))
                      (_chunks foxIndex)))
         (search foxIndex (lit "fox") ++ rest).
Proof.
  assert (H1 : extractKeywords (lit "fox") <> [])
    by (vm_compute; discriminate).
  assert (H2 : (0 <= RetrievalConfig.topK (_config foxIndex))%Z)
    by (vm_compute; discriminate).
  split; [exact H1|]. split; [exact H2|].
  destruct (@search_returns_the_best foxIndex (lit "fox") H1 H2)
    as [rest [Hp _]].
  exists rest. exact Hp.
Defined.

(** X18.  With a positive [minScore], a chunk without any of the keywords
    is never returned: when the query has a keyword, the content of every
    result holds at least one keyword of the query as a whole word, case
    aside. *)
Theorem search_results_hold_a_keyword (self : MyDataSource.t)
  (query : str) :
  0 < RetrievalConfig.minScore (_config self) ->
  extractKeywords query <> [] ->
  Forall (fun r =>
            exists k, In k (extractKeywords query)
                      /\ (0 < occurrences k (SearchResult.content r))%nat)
         (search self query).
Proof.
  intros Hmin Hne. apply Forall_forall. intros r Hr.
  destruct (@search_member self query r Hne Hr) as (chunk & Hin & -> & Hge).
  cbn [scored SearchResult.score SearchResult.content] in *.
  apply positive_score_occurrence; [apply extractKeywords_wordTokens | lra].
Qed.

Lemma search_results_hold_a_keyword_witness :
  0 < RetrievalConfig.minScore (_config foxIndex)
  /\ extractKeywords (lit "fox") <> []
  /\ Forall (fun r =>
               exists k, In k (extractKeywords (lit "fox"))
                         /\ (0 < occurrences k (SearchResult.content r))%nat)
            (search foxIndex (lit "fox")).
Proof.
  assert (H1 : 0 < RetrievalConfig.minScore (_config foxIndex)).
  { change (RetrievalConfig.minScore (_config foxIndex)) with (1 / 10). lra. }
  assert (H2 : extractKeywords (lit "fox") <> [])
    by (vm_compute; discriminate).
  split; [exact H1|]. split; [exact H2|].
  exact (@search_results_hold_a_keyword foxIndex (lit "fox") H1 H2).
Defined.



(** ** Rendering, and the SharePoint source *)

Module RenderFacts.
Import Aux More JsFacts ChunkerFacts StoreFacts LoadFacts SearchFacts.
Import SelectFacts MyDataSource Spec.

(** What both [renderContext] compute from the results. *)
Lemma render_trim (rs : list SearchResult.t) :
  rs <> [] ->
  trim (concat (map (fun r => contextBlock r ++ blankLine) rs))
  = join blankLine (map contextBlock rs).
Proof.
  intros Hne.
  rewrite <- (map_map contextBlock (fun b => b ++ blankLine)).
  rewrite concat_blocks by (destruct rs; [congruence | discriminate]).
  apply trim_app_spaces; [|apply blankLine_space].
  apply tight_join; [destruct rs; [congruence | discriminate]|].
  apply Forall_forall. intros b Hb. apply in_map_iff in Hb.
  destruct Hb as [r [<- _]]. apply contextBlock_tight.
Qed.

Lemma renderContext_eq (self : t) (query : str) :
  renderContext self query
  = RenderedContext.mk
      (join blankLine (map contextBlock (search self query)))
      (map SearchResult.citation (search self query)).
Proof.
  unfold renderContext. rewrite length_zero.
  destruct (search self query) as [|r rs] eqn:E; [reflexivity|].
  change (fun '(contextContent, sources) result =>
            (contextContent
               ++ formatDocument (SearchResult.content result)
                                 (SearchResult.citation result)
               ++ blankLine,
             sources ++ [SearchResult.citation result]))
    with (fun '(contextContent, sources) result =>
            (contextContent ++ contextBlock result ++ blankLine,
             sources ++ [SearchResult.citation result])).
  rewrite render_loop. cbn [app].
  now rewrite render_trim by discriminate.
Qed.

Lemma join_holds (sep x : str) (l : list str) :
  In x l -> exists pre post, join sep l = pre ++ x ++ post.
Proof.
  induction l as [|y l IH]; intros H; [destruct H|].
  destruct l as [|z l].
  - destruct H as [->|[]]. exists [], []. cbn. now rewrite app_nil_r.
  - rewrite join_cons by discriminate. destruct H as [->|H].
    + exists [], (sep ++ join sep (z :: l)). reflexivity.
    + destruct (IH H) as (pre & post & E). rewrite E.
      exists (y ++ sep ++ pre), post. now rewrite <- !app_assoc.
Qed.

Lemma reachable_chunk_cited (self : t) (chunk : DocumentChunk.t) :
  reachable self -> In chunk (_chunks self) ->
  exists d, In d (_data self)
            /\ DocumentChunk.citation chunk = Document.citation d.
Proof.
  intros Hr Hc.
  pose proof (reachable_invariant Hr) as Hk.
  pose proof (reachable_data_tight Hr) as Hd.
  rewrite chunkDocuments_concat in Hk. rewrite Hk in Hc.
  apply in_concat in Hc. destruct Hc as [group [Hg Hc]].
  apply in_map_iff in Hg. destruct Hg as [d [<- Hin]].
  rewrite Forall_forall in Hd.
  destruct (@docChunks_facts (RetrievalConfig.maxChunkSize (_config self))
              d (Hd d Hin)) as [_ Hall].
  rewrite Forall_forall in Hall. destruct (Hall chunk Hc) as [Hcit _].
  exists d. now split.
Qed.

(** The loop of [SharePointDataSource.search]. *)
Lemma fold_push_if (A B : Type) (p : A -> bool) (f : A -> B) (l : list A) :
  forall acc,
    fold_left (fun acc x => if p x then acc ++ [f x] else acc) l acc
    = acc ++ map f (filter p l).
Proof.
  induction l as [|x l IH]; intros acc; cbn [fold_left filter].
  - cbn. now rewrite app_nil_r.
  - rewrite IH. destruct (p x); [|reflexivity].
    cbn [map]. now rewrite <- app_assoc.
Qed.

Lemma sharePoint_search_eq (self : SharePointDataSource.t) (query : str) :
  SharePointDataSource.search self query
  = if SharePointDataSource._initialized self
    then map sharePointResult
           (filter (sharePointMatch query)
                   (SharePointDataSource._documents self))
    else [].
Proof.
  unfold SharePointDataSource.search.
  destruct (SharePointDataSource._initialized self); [|reflexivity].
  cbn [negb orb]. rewrite length_zero.
  destruct (SharePointDataSource._documents self) as [|d ds] eqn:E;
    [reflexivity|].
  apply (fold_push_if (sharePointMatch query) sharePointResult (d :: ds) []).
Qed.

Lemma startsWith_iff (p s : str) :
  startsWith p s = true <-> exists post, s = p ++ post.
Proof.
  revert s. induction p as [|a p IH]; intros s.
  - split; [intros _; now exists s | reflexivity].
  - destruct s as [|b s]; cbn [startsWith].
    + split; [discriminate | intros [post H]; discriminate].
    + rewrite andb_true_iff, IH. unfold eqbChar. rewrite Ascii.eqb_eq.
      split.
      * intros [-> [post ->]]. now exists post.
      * intros [post H]. injection H as -> ->. split; [reflexivity|].
        now exists post.
Qed.

(** [includes] is true of the substrings. *)
Lemma includes_iff (s p : str) :
  includes s p = true <-> exists pre post, s = pre ++ p ++ post.
Proof.
  induction s as [|c s IH]; cbn [includes].
  - rewrite orb_false_r, startsWith_iff. split.
    + intros [post H]. now exists [], post.
    + intros (pre & post & H). destruct pre; [|discriminate].
      now exists post.
  - rewrite orb_true_iff, startsWith_iff, IH. split.
    + intros [[post H]|(pre & post & H)].
      * now exists [], post.
      * exists (c :: pre), post. cbn. now rewrite H.
    + intros (pre & post & H). destruct pre as [|d pre].
      * left. now exists post.
      * right. injection H as -> H. now exists pre, post.
Qed.

Lemma includes_nil (s : str) : includes s (toLowerCase []) = true.
Proof. destruct s; reflexivity. Qed.

(** The loop of [SharePointDataSource.renderContext]. *)
Lemma sharePoint_render_loop (rs : list SearchResult.t) :
  forall sources content,
    fold_left
      (fun '(sources, content) result =>
         (sources ++ [SearchResult.citation result],
          content
            ++ lit "<context source=" ++ [dquote]
            ++ SearchResult.citation result ++ [dquote] ++ lit ">"
            ++ [nl] ++ SearchResult.content result ++ [nl]
            ++ lit "</context>" ++ blankLine))
      rs (sources, content)
    = (sources ++ map SearchResult.citation rs,
       content ++ concat (map (fun r => contextBlock r ++ blankLine) rs)).
Proof.
  induction rs as [|r rs IH]; intros sources content;
    cbn [fold_left map concat].
  - now rewrite !app_nil_r.
  - rewrite IH. unfold contextBlock. now rewrite <- !app_assoc.
Qed.

Lemma sharePoint_renderContext_eq (self : SharePointDataSource.t)
  (query : str) :
  SharePointDataSource.renderContext self query
  = RenderedContext.mk
      (join blankLine
            (map contextBlock (SharePointDataSource.search self query)))
      (map SearchResult.citation (SharePointDataSource.search self query)).
Proof.
  unfold SharePointDataSource.renderContext. rewrite length_zero.
  destruct (SharePointDataSource.search self query) as [|r rs];
    [reflexivity|].
  rewrite sharePoint_render_loop. cbn [app].
  now rewrite render_trim by discriminate.
Qed.

End RenderFacts.

Import RenderFacts.

(** X20.  [renderContext] loses nothing of what [search] returns: there is
    one source per result, in the order of the results; the block of every
    result, with its citation and its whole content, stands in the rendered
    content; and the content is empty only when there is no result. *)
Theorem renderContext_holds_every_result (self : MyDataSource.t)
  (query : str) :
  RenderedContext.sources (renderContext self query)
  = map SearchResult.citation (search self query)
  /\ Forall (fun r =>
               exists pre post,
                 RenderedContext.content (renderContext self query)
                 = pre ++ contextBlock r ++ post)
            (search self query)
  /\ (RenderedContext.content (renderContext self query) = []
      <-> search self query = []).
Proof.
  rewrite renderContext_eq. cbn [RenderedContext.sources RenderedContext.content].
  split; [reflexivity|]. split.
  - apply Forall_forall. intros r Hr. apply join_holds.
    now apply in_map.
  - split.
    + intros E. destruct (search self query) as [|r rs]; [reflexivity|].
      exfalso.
      destruct (@join_holds blankLine (contextBlock r)
                  (map contextBlock (r :: rs)) ltac:(now left))
        as (pre & post & H).
      rewrite E in H. symmetry in H. apply app_eq_nil in H.
      destruct H as [_ H]. apply app_eq_nil in H. destruct H as [H _].
      exact (tight_nonempty (contextBlock_tight r) H).
    + intros ->. reflexivity.
Qed.

(** X21.  In every state that an index reaches, [renderContext] cites
    loaded documents only: every source it returns is the citation of a
    document of the store. *)
Theorem renderContext_cites_loaded_documents (self : MyDataSource.t)
  (query : str) :
  reachable self ->
  Forall (fun source =>
            exists d, In d (_data self) /\ source = Document.citation d)
         (RenderedContext.sources (renderContext self query)).
Proof.
  intros Hr. rewrite renderContext_eq. cbn [RenderedContext.sources].
  apply Forall_forall. intros source Hs. apply in_map_iff in Hs.
  destruct Hs as [r [<- Hin]].
  destruct (list_eq_dec (list_eq_dec ascii_dec) (extractKeywords query) [])
    as [Ek|Hne].
  - destruct query as [|c q]; [destruct Hin|].
    rewrite search_fallback in Hin; [|discriminate|exact Ek].
    destruct (_data self) as [|first rest]; [destruct Hin|].
    destruct Hin as [<-|[]]. exists first. split; [now left | reflexivity].
  - destruct (@search_member self query r Hne Hin) as (chunk & Hc & -> & _).
    destruct (@reachable_chunk_cited self chunk Hr Hc) as [d [Hd Hcit]].
    exists d. split; [exact Hd | exact Hcit].
Qed.

Lemma renderContext_cites_loaded_documents_witness :
  reachable foxIndex
  /\ Forall (fun source =>
               exists d, In d (_data foxIndex)
                         /\ source = Document.citation d)
            (RenderedContext.sources (renderContext foxIndex (lit "fox"))).
Proof.
  assert (H : reachable foxIndex) by (constructor; constructor).
  split; [exact H|].
  exact (@renderContext_cites_loaded_documents foxIndex (lit "fox") H).
Defined.

(** X22.  [SharePointDataSource.search] returns nothing before a call of
    [init] has set the source up.  After it, the results are the documents
    whose content holds the query as a substring, case aside, in the order
    of the documents, each with its content, its name as citation and the
    score 1; the empty query returns every document. *)
Theorem sharePoint_search_substring (self : SharePointDataSource.t)
  (query : str) :
  (SharePointDataSource._initialized self = false ->
   SharePointDataSource.search self query = [])
  /\ (SharePointDataSource._initialized self = true ->
      SharePointDataSource.search self query
      = map sharePointResult
          (filter (sharePointMatch query)
                  (SharePointDataSource._documents self))
      /\ (forall doc,
            sharePointMatch query doc = true
            <-> exists pre post,
                  toLowerCase (SharePointDocument.content doc)
                  = pre ++ toLowerCase query ++ post)
      /\ SharePointDataSource.search self []
         = map sharePointResult (SharePointDataSource._documents self)).
Proof.
  split.
  - intros H. rewrite sharePoint_search_eq, H. reflexivity.
  - intros H. rewrite !sharePoint_search_eq, H.
    split; [reflexivity|]. split.
    + intros doc. apply includes_iff.
    + f_equal.
      induction (SharePointDataSource._documents self) as [|d ds IH];
        [reflexivity|].
      cbn [filter]. unfold sharePointMatch at 1.
      rewrite includes_nil. now rewrite IH.
Qed.

Lemma sharePoint_search_substring_witness :
  SharePointDataSource._initialized loadedSharePoint = true
  /\ SharePointDataSource.search loadedSharePoint (lit "FOX RUNS")
     = [sharePointResult foxDocument]
  /\ SharePointDataSource.search loadedSharePoint []
     = [sharePointResult foxDocument; sharePointResult catDocument].
Proof.
  assert (H : SharePointDataSource._initialized loadedSharePoint = true)
    by reflexivity.
  split; [exact H|].
  destruct (proj2 (@sharePoint_search_substring loadedSharePoint
                     (lit "FOX RUNS")) H) as [H1 [_ H3]].
  split; [exact H1 | exact H3].
Defined.

(** X23.  Both sources render their results in the same way: each of the
    two [renderContext] is [rendered] of the results of its own [search],
    that is their blocks joined by blank lines and their citations in the
    order of the results, whatever the state and the query. *)
Theorem sharePoint_renders_like_local (sp : SharePointDataSource.t)
  (self : MyDataSource.t) (query query' : str) :
  SharePointDataSource.renderContext sp query
  = rendered (SharePointDataSource.search sp query)
  /\ renderContext self query' = rendered (search self query').
Proof.
  split; [apply sharePoint_renderContext_eq | apply renderContext_eq].
Qed.

Lemma sharePoint_renders_like_local_witness :
  SharePointDataSource.search loadedSharePoint (lit "THE")
  = [sharePointResult foxDocument; sharePointResult catDocument]
  /\ length (search libraryIndex (lit "fox")) = 2%nat
  /\ SharePointDataSource.renderContext loadedSharePoint (lit "THE")
     = rendered [sharePointResult foxDocument; sharePointResult catDocument]
  /\ renderContext libraryIndex (lit "fox")
     = rendered (search libraryIndex (lit "fox")).
Proof.
  assert (H : SharePointDataSource.search loadedSharePoint (lit "THE")
              = [sharePointResult foxDocument; sharePointResult catDocument])
    by reflexivity.
  split; [exact H|].
  split; [now rewrite search_library_scenario|].
  destruct (@sharePoint_renders_like_local loadedSharePoint libraryIndex
              (lit "THE") (lit "fox")) as [Hs Hl].
  split; [now rewrite <- H | exact Hl].
Defined.

(** ** Paragraphs, split and joined again *)

Module ParagraphFacts.
Import Aux More JsFacts ChunkerFacts BudgetFacts RenderFacts MyDataSource Spec.

Lemma isNewline_nl (c : ascii) : isNewline c = true <-> c = nl.
Proof.
  unfold isNewline, code. rewrite Nat.eqb_eq. split.
  - intros H. rewrite <- (ascii_nat_embedding c), H. reflexivity.
  - intros ->. reflexivity.
Qed.

Lemma matchBlankLines_zero (c : ascii) (s : str) :
  matchBlankLines (c :: s) = 0%nat ->
  isNewline c = true ->
  match s with d :: _ => isNewline d = false | [] => True end.
Proof.
  unfold matchBlankLines. cbn [takeWhile]. intros H Hc. rewrite Hc in H.
  destruct s as [|d s]; [exact I|]. cbn [takeWhile length] in H.
  destruct (isNewline d); [discriminate | reflexivity].
Qed.

Lemma noBlankLine_snoc (l : str) (c : ascii) :
  noBlankLine l ->
  (forall d l', rev l = d :: l' -> isNewline d = true -> isNewline c = false) ->
  noBlankLine (l ++ [c]).
Proof.
  intros Hl Hlast. unfold noBlankLine in *.
  destruct (includes (l ++ [c]) blankLine) eqn:E; [|reflexivity].
  exfalso. apply includes_iff in E. destruct E as (pre & post & E).
  destruct post as [|x post _] using rev_ind.
  - rewrite app_nil_r in E.
    change (pre ++ blankLine) with (pre ++ [nl] ++ [nl]) in E.
    rewrite app_assoc in E. apply app_inj_tail in E. destruct E as [E ->].
    assert (Hc : isNewline nl = false).
    { apply (Hlast nl (rev pre)); [|reflexivity].
      rewrite E, rev_app_distr. reflexivity. }
    discriminate.
  - rewrite !app_assoc in E. apply app_inj_tail in E. destruct E as [E _].
    assert (Hin : includes l blankLine = true).
    { apply includes_iff. exists pre, post. now rewrite E, <- app_assoc. }
    congruence.
Qed.

(** The pieces of [split(/\n\n+/)] hold no blank line. *)
Lemma splitGo_noBlankLine (s : str) : forall skip cur piece,
  noBlankLine (rev cur) ->
  (forall d cur', cur = d :: cur' -> isNewline d = true ->
     match s with e :: _ => isNewline e = false | [] => True end) ->
  (skip = 0%nat \/ cur = []) ->
  In piece (splitGo matchBlankLines s skip cur) -> noBlankLine piece.
Proof.
  induction s as [|c s IH]; intros skip cur piece Hcur Hhead Hskip Hp.
  - destruct Hp as [<-|[]]. exact Hcur.
  - cbn [splitGo] in Hp. destruct skip as [|k].
    + destruct (matchBlankLines (c :: s)) as [|k] eqn:Em.
      * apply (IH 0%nat (c :: cur) piece); [| | now left | exact Hp].
        -- cbn [rev]. apply noBlankLine_snoc; [exact Hcur|].
           intros d l' Hd Hn.
           destruct cur as [|d0 cur0].
           ++ discriminate.
           ++ cbn [rev] in Hd. rewrite rev_app_distr in Hd.
              rewrite rev_involutive in Hd. injection Hd as <- _.
              exact (Hhead d0 cur0 eq_refl Hn).
        -- intros d cur' Hd Hn. injection Hd as <- _.
           exact (@matchBlankLines_zero c s Em Hn).
      * destruct Hp as [<-|Hp]; [exact Hcur|].
        apply (IH k [] piece); [reflexivity | discriminate | now right | exact Hp].
    + destruct Hskip as [Hs | -> ]; [discriminate|].
      apply (IH k [] piece); [reflexivity | discriminate | now right | exact Hp].
Qed.

Lemma dropWhile_suffix (p : ascii -> bool) (s : str) :
  exists pre, s = pre ++ dropWhile p s.
Proof.
  induction s as [|c s [pre IH]]; [now exists []|]. cbn [dropWhile].
  destruct (p c); [|now exists []].
  exists (c :: pre). cbn. now rewrite <- IH.
Qed.

Lemma trim_substring (s : str) : exists pre post, s = pre ++ trim s ++ post.
Proof.
  unfold trim, trimStart, trimEnd.
  destruct (dropWhile_suffix isSpace s) as [pre Hpre].
  destruct (dropWhile_suffix isSpace (rev (dropWhile isSpace s)))
    as [post Hpost].
  exists pre, (rev post).
  rewrite <- rev_app_distr, <- Hpost, rev_involutive. exact Hpre.
Qed.

Lemma noBlankLine_trim (s : str) : noBlankLine s -> noBlankLine (trim s).
Proof.
  unfold noBlankLine. intros H.
  destruct (includes (trim s) blankLine) eqn:E; [|reflexivity].
  exfalso. apply includes_iff in E. destruct E as (a & b & E).
  destruct (trim_substring s) as (pre & post & Hs).
  assert (Hin : includes s blankLine = true).
  { apply includes_iff. exists (pre ++ a), (b ++ post).
    rewrite Hs, E. now rewrite <- !app_assoc. }
  congruence.
Qed.

Lemma paragraphs_noBlankLine (text : str) :
  Forall noBlankLine (paragraphsOf text).
Proof.
  unfold paragraphsOf. apply Forall_forall. intros p Hp.
  apply filter_In in Hp. destruct Hp as [Hin _].
  apply in_map_iff in Hin. destruct Hin as [piece [<- Hpiece]].
  apply noBlankLine_trim.
  apply (@splitGo_noBlankLine text 0%nat [] piece);
    [reflexivity | discriminate | now left | exact Hpiece].
Qed.

(** Inside a paragraph the pattern does not match. *)
Lemma splitGo_paragraph (p : str) : forall rest cur,
  noBlankLine p ->
  match rev p with [] => True | c :: _ => isSpace c = false end ->
  splitGo matchBlankLines (p ++ rest) 0 cur
  = splitGo matchBlankLines rest 0 (rev p ++ cur).
Proof.
  induction p as [|c p IH]; intros rest cur Hnb Hlast; [reflexivity|].
  assert (Hp : noBlankLine p).
  { unfold noBlankLine in *. cbn [includes] in Hnb.
    now apply orb_false_elim in Hnb. }
  assert (Hlast' : match rev p with [] => True | d :: _ => isSpace d = false end).
  { cbn [rev] in Hlast. destruct (rev p); [exact I | exact Hlast]. }
  assert (Hm : matchBlankLines ((c :: p) ++ rest) = 0%nat).
  { unfold matchBlankLines. cbn [app takeWhile].
    destruct (isNewline c) eqn:Ec; [|reflexivity].
    destruct p as [|d p].
    - cbn [rev app] in Hlast. apply isNewline_isSpace in Ec. congruence.
    - cbn [app takeWhile].
      destruct (isNewline d) eqn:Ed; [|reflexivity].
      exfalso. unfold noBlankLine in Hnb.
      apply isNewline_nl in Ec, Ed. subst c d.
      cbn in Hnb. discriminate. }
  cbn [app] in Hm |- *. cbn [splitGo]. rewrite Hm.
  rewrite IH by assumption. cbn [rev]. now rewrite <- app_assoc.
Qed.

(** Paragraphs joined by blank lines split into the same paragraphs. *)
Lemma split_join_paragraphs (ps : list str) :
  ps <> [] -> Forall tight ps -> Forall noBlankLine ps ->
  split matchBlankLines (J ps) = ps.
Proof.
  assert (Hlast : forall p, tight p ->
            match rev p with [] => True | c :: _ => isSpace c = false end).
  { intros p [_ H]. destruct (rev p); [exact I | exact H]. }
  unfold split. intros Hne Ht Hnb.
  induction Ht as [|p ps Hp Hps IH]; [congruence|].
  inversion Hnb as [|? ? Hnp Hnps]; subst.
  destruct ps as [|q ps].
  - cbn [join]. rewrite <- (app_nil_r p) at 1.
    rewrite (@splitGo_paragraph p [] [] Hnp (Hlast p Hp)). cbn [splitGo].
    now rewrite app_nil_r, rev_involutive.
  - rewrite join_cons by discriminate.
    rewrite (@splitGo_paragraph p _ [] Hnp (Hlast p Hp)). rewrite app_nil_r.
    inversion Hps as [|? ? Hq _]; subst.
    set (j := J (q :: ps)) in *.
    assert (Hj : exists c tl, j = c :: tl /\ isNewline c = false).
    { subst j. destruct Hq as [Hh _]. destruct q as [|c q]; [contradiction|].
      assert (Hc : isNewline c = false).
      { destruct (isNewline c) eqn:E; [|reflexivity].
        apply isNewline_isSpace in E. congruence. }
      destruct ps; cbn [join app]; eauto. }
    destruct Hj as (c & tl & Hj & Hc).
    assert (Hm : matchBlankLines (blankLine ++ j) = 2%nat).
    { rewrite Hj. unfold matchBlankLines. cbn [blankLine app takeWhile].
      change (isNewline nl) with true. cbv iota. now rewrite Hc. }
    change (blankLine ++ j) with (nl :: nl :: j) in *.
    cbn [splitGo]. rewrite Hm. cbn [splitGo].
    rewrite rev_involutive. f_equal. apply IH; [discriminate | exact Hnps].
Qed.

Lemma paragraphsOf_join (ps : list str) :
  Forall tight ps -> Forall noBlankLine ps -> paragraphsOf (J ps) = ps.
Proof.
  intros Ht Hnb. destruct ps as [|p ps]; [reflexivity|].
  unfold paragraphsOf. rewrite split_join_paragraphs by (auto; discriminate).
  induction Ht as [|x l Hx _ IH]; [reflexivity|].
  inversion Hnb; subst. cbn [map filter].
  rewrite (trim_tight Hx), (proj2 (truthy_true x) (tight_nonempty Hx)).
  f_equal. now apply IH.
Qed.

(** The chunks depend on the text through its paragraphs only. *)
Lemma chunks_by_paragraphs (text text' : str) (maxSize : Z) :
  paragraphsOf text = paragraphsOf text' -> paragraphsOf text <> [] ->
  splitIntoChunks text maxSize = splitIntoChunks text' maxSize.
Proof.
  intros E Hne.
  assert (Hl : splitLoop text' maxSize = splitLoop text maxSize).
  { unfold splitLoop.
    rewrite (fold_paragraphs maxSize (split matchBlankLines text')).
    rewrite (fold_paragraphs maxSize (split matchBlankLines text)).
    unfold paragraphsOf in E. now rewrite E. }
  destruct (@splitLoop_groups text maxSize Hne)
    as (groups & cg & HL & _ & _ & Hcg & H4).
  unfold splitIntoChunks. rewrite Hl, HL.
  rewrite (trim_tight (tight_join Hcg H4)).
  rewrite (proj2 (truthy_true _) (tight_nonempty (tight_join Hcg H4))).
  destruct (map J groups ++ [J cg]) as [|c cs] eqn:Em; [|reflexivity].
  destruct (map J groups); discriminate.
Qed.

End ParagraphFacts.

Import ParagraphFacts.

(** X24. Chunking is stable under joining: the paragraphs of a text, joined
    by blank lines, split into the same paragraphs again, and the chunks of
    a text, joined by blank lines and chunked again with the same budget,
    give the same chunks. *)
Theorem rechunking_is_stable (text : str) (maxSize : Z) :
  paragraphsOf (join blankLine (paragraphsOf text)) = paragraphsOf text
  /\ splitIntoChunks (join blankLine (splitIntoChunks text maxSize)) maxSize
     = splitIntoChunks text maxSize.
Proof.
  assert (Hp : paragraphsOf (J (paragraphsOf text)) = paragraphsOf text).
  { apply paragraphsOf_join;
      [apply paragraphs_tight | apply paragraphs_noBlankLine]. }
  split; [exact Hp|].
  destruct (paragraphsOf text) as [|p ps] eqn:E.
  - rewrite (@splitIntoChunks_no_paragraph text maxSize E). cbn [join].
    exact (@splitIntoChunks_no_paragraph text maxSize E).
  - assert (Hne : paragraphsOf text <> []) by (rewrite E; discriminate).
    destruct (@splitIntoChunks_groups text maxSize Hne)
      as (groups & Hg & Hc & Hgood).
    rewrite Hg at 1. rewrite join_concat.
    + rewrite Hc, E. apply chunks_by_paragraphs.
      * now rewrite Hp, E.
      * rewrite Hp. discriminate.
    + eapply Forall_impl; [|exact Hgood]. now intros g [H _].
Qed.
